(** * Path-addressable aggregation trees (package aggretastic)

    A shallow embedding of the tree adapter [tree], the root collection
    [Aggregations] and the predicate [IsNilTree], followed by the
    properties of path navigation that the design document lists.

    Go interface values of type [Aggregation] are references: [nil] or a
    pointer to a concrete aggregation, every one of which embeds [*tree] and
    inherits its methods unchanged.  Nodes therefore live in a store indexed
    by addresses, so that one node can be reached through several entries
    (or through itself) exactly as in the program.  Child maps are the ones
    [nilAggregationTree] allocates; a nil interface stored in a map, a node
    whose [Export] is nil, a nil [*Aggregations] and a collection that is
    still the nil map are all part of the model, and what the Go runtime
    does with them (a panic on a method call, a dereference or an
    assignment) is written out. *)

From Stdlib Require Import Lia.
From stdpp Require Import gmap strings list fin_maps.
From Equations Require Import Equations.

(** ** Data model *)

(** Address of a concrete aggregation object. *)
Definition loc := positive.

(** An interface value ([Aggregation] or [elastic.Aggregation]):
    [None] is the nil interface, [Some l] points to the object at [l]. *)
Abbreviation Aggregation := (option loc).
Abbreviation nilAgg := (@None loc).

(** [type tree struct { root elastic.Aggregation;
                        subAggregations map[string]Aggregation }] *)
Record tree := mkTree {
  root : Aggregation;
  subAggregations : gmap string Aggregation
}.

(** The store: the tree embedded in every live aggregation object.  An
    address without a tree stands for an object whose embedded [*tree] is
    nil; going through it is a nil dereference. *)
Abbreviation heap := (gmap loc tree).

(** The three error sentinels; Go's nil error is [None]. *)
Inductive error := ErrNoPath | ErrPathNotSelectable | ErrAggIsNotInjectable.

(** Run-time panics, tagged by what was dereferenced. *)
Inductive panic :=
| NilInterface   (* method call on a nil [Aggregation] *)
| NilTree        (* field access through a nil [*tree] *)
| NilCollection  (* [*a] on a nil [*Aggregations] *)
| NilMapWrite.   (* assignment to an entry of a nil map *)

Inductive result (A : Type) :=
| Ok (x : A)
| Panic (p : panic).
Arguments Ok {A} x.
Arguments Panic {A} p.

(** A panic aborts whatever follows; [x ← r; k] is stdpp's notation for
    the sequencing. *)
#[global] Instance result_bind : MBind result := λ A B k r,
  match r with
  | Ok x => k x
  | Panic p => Panic p
  end.

(** [nilAggregationTree(root)]: a tree with an allocated, empty child map. *)
Definition nilAggregationTree (r : Aggregation) : tree :=
  mkTree r ∅.

(** ** The tree adapter *)

(** A method call [v.m(...)] through an interface value: nil has no method
    table, a pointer runs the method its type inherits from [*tree]. *)
Definition call {A} (v : Aggregation) (m : loc → result A) : result A :=
  match v with
  | None => Panic NilInterface
  | Some l => m l
  end.

(** [func (a *tree) Export() elastic.Aggregation] *)
Definition Export (h : heap) (a : loc) : result Aggregation :=
  match h !! a with
  | None => Panic NilTree
  | Some t => Ok (root t)
  end.

(** [func IsNilTree(t Aggregation) bool { return t == nil || t.Export() == nil }] *)
Definition IsNilTree (h : heap) (t : Aggregation) : result bool :=
  match t with
  | None => Ok true
  | Some l =>
      e ← Export h l;
      Ok (bool_decide (e = nilAgg))
  end.

(** [func (a *tree) Select(path ...string) Aggregation] *)
Fixpoint Select (h : heap) (a : loc) (path : list string) : result Aggregation :=
  match path with
  | [] => Ok nilAgg
  | name :: rest =>
      match h !! a with
      | None => Panic NilTree
      | Some t =>
          match subAggregations t !! name with
          | None => Ok nilAgg
          | Some subAgg =>
              match rest with
              | [] => Ok subAgg
              | _ :: _ =>
                  call subAgg (λ l, Select h l rest)
              end
          end
      end
  end.

(** [func (a *tree) Pop(path ...string) Aggregation]; the store after the
    call is returned next to the result. *)
Fixpoint Pop (h : heap) (a : loc) (path : list string)
  : result (Aggregation * heap) :=
  match path with
  | [] => Ok (nilAgg, h)
  | name :: rest =>
      match h !! a with
      | None => Panic NilTree
      | Some t =>
          match subAggregations t !! name with
          | None => Ok (nilAgg, h)
          | Some subAgg =>
              match rest with
              | [] =>
                  Ok (subAgg,
                      <[a := mkTree (root t) (delete name (subAggregations t))]> h)
              | _ :: _ =>
                  call subAgg (λ l, Pop h l rest)
              end
          end
      end
  end.

(** [path[:len(path)-1]] and [path[len(path)-1]] for a non-empty path. *)
Definition init (path : list string) : list string := removelast path.
Definition final (path : list string) : string := List.last path EmptyString.

(** [func (a *tree) Inject(subAggregation Aggregation, path ...string) error].
    The deeper case calls [Inject] again, through the interface, on the
    selected node with the one-element path made of the last name. *)
Equations Inject (h : heap) (a : loc) (subAggregation : Aggregation)
  (path : list string) : result (option error * heap)
  by wf (length path) lt :=
Inject h a subAggregation [] := Ok (Some ErrNoPath, h);
Inject h a subAggregation [name] :=
  match h !! a with
  | None => Panic NilTree
  | Some t =>
      Ok (None,
          <[a := mkTree (root t) (<[name := subAggregation]> (subAggregations t))]> h)
  end;
Inject h a subAggregation (x :: y :: rest) :=
  cursor ← Select h a (init (x :: y :: rest));
  isnil ← IsNilTree h cursor;
  if (isnil : bool) then Ok (Some ErrPathNotSelectable, h)
  else call cursor (λ c, Inject h c subAggregation [final (x :: y :: rest)]).
Next Obligation. simpl. lia. Defined.

(** [func (a *tree) InjectX(subAggregation Aggregation, path ...string) error] *)
Definition InjectX (h : heap) (a : loc) (subAggregation : Aggregation)
  (path : list string) : result (option error * heap) :=
  match path with
  | [] => Ok (Some ErrNoPath, h)
  | _ :: _ =>
      alreadyInjected ← Select h a path;
      isnil ← IsNilTree h alreadyInjected;
      if (isnil : bool) then Inject h a subAggregation path
      else Ok (None, h)
  end.

(** [func (a *tree) GetAllSubs() map[string]Aggregation] *)
Definition GetAllSubs (h : heap) (a : loc) : result (gmap string Aggregation) :=
  match h !! a with
  | None => Panic NilTree
  | Some t => Ok (subAggregations t)
  end.

(** ** The root collection *)

(** [type Aggregations map[string]Aggregation]: the entries of a map. *)
Abbreviation Aggregations := (gmap string Aggregation).

(** The value of an [Aggregations] variable: the nil map, which is the zero
    value of the type ([var a Aggregations]), or a map that was allocated
    (by [make] or a literal) and holds [m].  The map is the collection's
    own, not the child map of some node. *)
Inductive collection :=
| NilMap
| Made (m : Aggregations).

(** What reading sees: a nil map reads as an empty one. *)
Definition entries (c : collection) : Aggregations :=
  match c with
  | NilMap => ∅
  | Made m => m
  end.

(** The assignment of [subAgg] to the entry [name] of the collection's
    map; an assignment to an entry of a nil map panics. *)
Definition assign (c : collection) (name : string) (subAgg : Aggregation)
  : result collection :=
  match c with
  | NilMap => Panic NilMapWrite
  | Made m => Ok (Made (<[name := subAgg]> m))
  end.

(** The methods take a [*Aggregations]: [None] is the nil pointer, [Some c]
    points to a variable holding [c]. *)

(** [func (a *Aggregations) Export() map[string]elastic.Aggregation].
    The [range] loop is a fold over the entries; Go fixes no order, and the
    map built does not depend on it. *)
Definition AggsExport (h : heap) (a : option collection)
  : result (gmap string Aggregation) :=
  match a with
  | None => Ok ∅
  | Some c =>
      map_fold (λ k v acc,
                  result ← acc;
                  e ← call v (Export h);
                  Ok (<[k := e]> result))
               (Ok ∅) (entries c)
  end.

(** [func (a *Aggregations) Select(path ...string) Aggregation] *)
Definition AggsSelect (h : heap) (a : option collection)
  (path : list string) : result Aggregation :=
  match path with
  | [] => Ok nilAgg
  | name :: rest =>
      match a with
      | None => Panic NilCollection
      | Some c =>
          match entries c !! name with
          | None => Ok nilAgg
          | Some base =>
              match rest with
              | [] => Ok base
              | _ :: _ => call base (λ l, Select h l rest)
              end
          end
      end
  end.

(** [func (a *Aggregations) Pop(path ...string) Aggregation]; returns the
    store and the collection after the call as well.  The [delete] runs
    only after the key was found, hence on an allocated map. *)
Definition AggsPop (h : heap) (a : option collection) (path : list string)
  : result (Aggregation * heap * option collection) :=
  match path with
  | [] => Ok (nilAgg, h, a)
  | name :: rest =>
      match a with
      | None => Panic NilCollection
      | Some c =>
          match entries c !! name with
          | None => Ok (nilAgg, h, a)
          | Some base =>
              match rest with
              | [] => Ok (base, h, Some (Made (delete name (entries c))))
              | _ :: _ =>
                  '(r, h') ← call base (λ l, Pop h l rest);
                  Ok (r, h', a)
              end
          end
      end
  end.

(** [func (a *Aggregations) Inject(subAgg Aggregation, path ...string) error] *)
Definition AggsInject (h : heap) (a : option collection)
  (subAgg : Aggregation) (path : list string)
  : result (option error * heap * option collection) :=
  match a with
  | None => Ok (Some ErrAggIsNotInjectable, h, a)
  | Some c =>
      match path with
      | [] => Ok (Some ErrNoPath, h, a)
      | name :: rest =>
          match rest with
          | [] =>
              c' ← assign c name subAgg;
              Ok (None, h, Some c')
          | _ :: _ =>
              match entries c !! name with
              | None => Ok (Some ErrAggIsNotInjectable, h, a)
              | Some base =>
                  '(e, h') ← call base (λ l, Inject h l subAgg rest);
                  Ok (e, h', a)
              end
          end
      end
  end.

(** [func (a *Aggregations) InjectX(subAgg Aggregation, path ...string) error] *)
Definition AggsInjectX (h : heap) (a : option collection)
  (subAgg : Aggregation) (path : list string)
  : result (option error * heap * option collection) :=
  match a with
  | None => Ok (Some ErrAggIsNotInjectable, h, a)
  | Some c =>
      match path with
      | [] => Ok (Some ErrNoPath, h, a)
      | name :: rest =>
          match rest with
          | [] =>
              match entries c !! name with
              | None =>
                  c' ← assign c name subAgg;
                  Ok (None, h, Some c')
              | Some _ => Ok (None, h, a)
              end
          | _ :: _ =>
              match entries c !! name with
              | None => Ok (Some ErrAggIsNotInjectable, h, a)
              | Some base =>
                  '(e, h') ← call base (λ l, InjectX h l subAgg rest);
                  Ok (e, h', a)
              end
          end
      end
  end.

(** ** Descending a path *)

(** The nodes whose child map [Select] (and [Pop]) reads while it descends
    [path] from [a], in order; the node the path selects is not among them
    unless the structure loops back. *)
Fixpoint trail (h : heap) (a : loc) (path : list string) : list loc :=
  match path with
  | [] => []
  | name :: rest =>
      a :: match h !! a with
           | None => []
           | Some t =>
               match subAggregations t !! name with
               | Some (Some l) => trail h l rest
               | _ => []
               end
           end
  end.

(** Whether the node that receives the last name of [path] (the node that
    [init path] selects) is also read on the way to it. *)
Definition parent_revisited (h : heap) (a : loc) (path : list string) : bool :=
  match Select h a (init path) with
  | Ok (Some c) => bool_decide (c ∈ trail h a (init path))
  | _ => false
  end.

(** The node whose child map holds the entry that [path] addresses: the
    receiver for a single name, what [init path] selects otherwise. *)
Definition parent (h : heap) (a : loc) (path : list string) : result Aggregation :=
  match init path with
  | [] => Ok (Some a)
  | _ :: _ => Select h a (init path)
  end.

(** [h] with the child map of the tree at [c] replaced. *)
Definition set_subs (h : heap) (c : loc) (t : tree) (m : gmap string Aggregation)
  : heap :=
  <[c := mkTree (root t) m]> h.

(** [l]'s child at [k], when it is a pointer. *)
Definition child (h : heap) (l : loc) (k : string) : option loc :=
  t ← h !! l; v ← subAggregations t !! k; v.

(** No node is its own descendant: depth grows from parent to child. *)
Definition acyclic (h : heap) : Prop :=
  ∃ depth : loc → nat, ∀ l k c, child h l k = Some c → depth l < depth c.

(** Empty path, or a name missing from the child map it is looked up in. *)
Fixpoint unresolved (h : heap) (a : loc) (path : list string) : bool :=
  match path with
  | [] => true
  | name :: rest =>
      match h !! a with
      | None => false
      | Some t =>
          match subAggregations t !! name with
          | None => true
          | Some subAgg =>
              match rest with
              | [] => false
              | _ :: _ =>
                  match subAgg with
                  | None => false
                  | Some l => unresolved h l rest
                  end
              end
          end
      end
  end.


(** ** Example states *)

Section states.
Local Open Scope string_scope.

Definition n1 : loc := 1%positive.
Definition n2 : loc := 2%positive.
Definition n3 : loc := 3%positive.
Definition n4 : loc := 4%positive.

(** Two aggregations straight from their constructors, which run
    [a.tree = nilAggregationTree(a)]. *)
Definition two_nodes : heap :=
  {[ n1 := nilAggregationTree (Some n1);
     n2 := nilAggregationTree (Some n2) ]}.

(** Node 1 after [n1.Inject(n1, "x")]: it is its own child. *)
Definition looped : heap :=
  set_subs two_nodes n1 (nilAggregationTree (Some n1))
           {[ "x" := Some n1 ]}.


(** A filter (1) holding a sampler (2) under "a"; 3 is a fresh stats node. *)
Definition nested : heap :=
  {[ n1 := mkTree (Some n1) {[ "a" := Some n2 ]};
     n2 := nilAggregationTree (Some n2);
     n3 := nilAggregationTree (Some n3) ]}.

(** [nested] after [n1.Inject(n3, "a", "b")]. *)
Definition nested_injected : heap :=
  set_subs nested n2 (nilAggregationTree (Some n2))
           {[ "b" := Some n3 ]}.

(** The sampler (2) under "a" is degenerate: its tree was built with a nil
    root, so its [Export] is nil.  It holds a stats node (3) under "b". *)
Definition through_degenerate : heap :=
  {[ n1 := mkTree (Some n1) {[ "a" := Some n2 ]};
     n2 := mkTree nilAgg {[ "b" := Some n3 ]};
     n3 := nilAggregationTree (Some n3);
     n4 := nilAggregationTree (Some n4) ]}.

(** Node 1 of [two_nodes] after [n1.Inject(nil, "a")]. *)
Definition nil_entry : heap :=
  set_subs two_nodes n1 (nilAggregationTree (Some n1)) {[ "a" := nilAgg ]}.

(** A collection holding node 1 under "x". *)
Definition one_root : Aggregations := {[ "x" := Some n1 ]}.

(** Nodes 1 and 2 are fresh; node 3 is degenerate (nil root, no child). *)
Definition with_degenerate : heap :=
  {[ n1 := nilAggregationTree (Some n1);
     n2 := nilAggregationTree (Some n2);
     n3 := nilAggregationTree nilAgg ]}.

(** Node 1 is degenerate, node 2 is fresh. *)
Definition degenerate_root : heap :=
  {[ n1 := nilAggregationTree nilAgg;
     n2 := nilAggregationTree (Some n2) ]}.

(** A collection whose entry "x" is a nil interface. *)
Definition nil_root : Aggregations := {[ "x" := nilAgg ]}.

Definition path_y : list string := ["y"].
Definition path_x : list string := ["x"].
Definition path_xx : list string := ["x"; "x"].
Definition path_xy : list string := ["x"; "y"].
Definition path_a : list string := ["a"].
Definition path_ab : list string := ["a"; "b"].
Definition path_abc : list string := ["a"; "b"; "c"].
End states.

(** ** Concrete aggregations: constructors, builders and [Source] *)

(** [a := &FilterAggregation{}; a.tree = nilAggregationTree(a)], the
    allocation every constructor of a tree-embedding aggregation performs:
    a new object at an unused address whose tree points back to it. *)
Definition newAggregationTree (h : heap) : loc * heap :=
  let a := fresh (dom h) in
  (a, <[a := nilAggregationTree (Some a)]> h).

(** [a.subAggregations[name] = subAggregation; return a], the body of every
    [SubAggregation] builder method. *)
Definition SubAggregation (h : heap) (a : loc) (name : string)
  (subAggregation : Aggregation) : result (loc * heap) :=
  match h !! a with
  | None => Panic NilTree
  | Some t =>
      Ok (a, <[a := mkTree (root t)
                      (<[name := subAggregation]> (subAggregations t))]> h)
  end.

(** A JSON-serialisable value, the [interface{}] that [Source] builds. *)
#[warnings="-register-all"]
Inductive doc :=
| DString (s : string)
| DInt (z : Z)
| DStrings (l : list string)
| DMap (m : gmap string doc).

(** What a call returning [(interface{}, error)] does: it returns a value,
    returns a non-nil error (kept as its message), or panics. *)
Inductive outcome (A : Type) :=
| Returned (x : A)
| Failed (e : string)
| Panicked (p : panic).
Arguments Returned {A} x.
Arguments Failed {A} e.
Arguments Panicked {A} p.

#[global] Instance outcome_bind : MBind outcome := λ A B k r,
  match r with
  | Returned x => k x
  | Failed e => Failed e
  | Panicked p => Panicked p
  end.

(** [aggregate.Source()] through the interface.  The aggregation kinds are
    open-ended, so what each referenced aggregation's own [Source] returns
    is a parameter, [childSource]. *)
Definition callSource (childSource : loc → outcome doc) (aggregate : Aggregation)
  : outcome doc :=
  match aggregate with
  | None => Panicked NilInterface
  | Some l => childSource l
  end.

(** The loop that every [Source] runs over its sub-aggregations:
    [for name, aggregate := range a.subAggregations {
       src, err := aggregate.Source()
       if err != nil { return nil, err }
       aggsMap[name] = src }]. *)
Definition sourceSubAggregations (childSource : loc → outcome doc)
  (subAggregations : gmap string Aggregation) : outcome (gmap string doc) :=
  map_fold (λ name aggregate acc,
              aggsMap ← acc;
              src ← callSource childSource aggregate;
              Returned (<[name := src]> aggsMap))
           (Returned ∅) subAggregations.


Module SumBucketAggregation.
Local Open Scope string_scope.

(** [type SumBucketAggregation struct]; the embedded [*finiteAggregation]
    plays no part in the methods below. *)
Record t := mk {
  format : string;
  gapPolicy : string;
  meta : gmap string doc;
  bucketsPaths : list string
}.

(** [NewSumBucketAggregation] *)
Definition New : t := mk "" "" ∅ [].

Definition Format (f : string) (a : t) : t :=
  mk f (gapPolicy a) (meta a) (bucketsPaths a).
Definition GapPolicy (g : string) (a : t) : t :=
  mk (format a) g (meta a) (bucketsPaths a).
Definition GapInsertZeros (a : t) : t :=
  mk (format a) "insert_zeros" (meta a) (bucketsPaths a).
Definition GapSkip (a : t) : t :=
  mk (format a) "skip" (meta a) (bucketsPaths a).
Definition Meta (metaData : gmap string doc) (a : t) : t :=
  mk (format a) (gapPolicy a) metaData (bucketsPaths a).
(** [a.bucketsPaths = append(a.bucketsPaths, bucketsPaths...)] *)
Definition BucketsPath (paths : list string) (a : t) : t :=
  mk (format a) (gapPolicy a) (meta a) (bucketsPaths a ++ paths).

(** [func (a *SumBucketAggregation) Source() (interface{}, error)] *)
Definition Source (a : t) : outcome doc :=
  let params : gmap string doc := ∅ in
  let params :=
    if decide (format a = "") then params
    else <["format" := DString (format a)]> params in
  let params :=
    if decide (gapPolicy a = "") then params
    else <["gap_policy" := DString (gapPolicy a)]> params in
  let params :=
    match bucketsPaths a with
    | [] => params
    | [path] => <["buckets_path" := DString path]> params
    | _ => <["buckets_path" := DStrings (bucketsPaths a)]> params
    end in
  let source : gmap string doc := {[ "sum_bucket" := DMap params ]} in
  let source :=
    if decide (0 < size (meta a)) then <["meta" := DMap (meta a)]> source
    else source in
  Returned (DMap source).
End SumBucketAggregation.

Module DiversifiedSamplerAggregation.
Local Open Scope string_scope.

(** [type DiversifiedSamplerAggregation struct], without the embedded
    [*tree], which lives in the store.  A script is nil or a
    [*elastic.Script], known here by what its [Source()] returns. *)
Record t := mk {
  meta : gmap string doc;
  field : string;
  script : option (outcome doc);
  shardSize : Z;
  maxDocsPerValue : Z;
  executionHint : string
}.

(** [NewDiversifiedSamplerAggregation]: both sizes start at -1. *)
Definition New (h : heap) : loc * t * heap :=
  let '(a, h') := newAggregationTree h in
  (a, mk ∅ "" None (-1) (-1) "", h').

Definition MaxDocsPerValue (n : Z) (a : t) : t :=
  mk (meta a) (field a) (script a) (shardSize a) n (executionHint a).

(** The options under "diversified_sampler". *)
Definition options (a : t) : outcome (gmap string doc) :=
  let opts : gmap string doc := ∅ in
  let opts :=
    if decide (field a = "") then opts
    else <["field" := DString (field a)]> opts in
  opts ← match script a with
         | None => Returned opts
         | Some s => src ← s; Returned (<["script" := src]> opts)
         end;
  let opts :=
    if decide (0 ≤ shardSize a)%Z
    then <["shard_size" := DInt (shardSize a)]> opts else opts in
  let opts :=
    if decide (0 ≤ maxDocsPerValue a)%Z
    then <["max_docs_per_value" := DInt (maxDocsPerValue a)]> opts else opts in
  let opts :=
    if decide (executionHint a = "") then opts
    else <["execution_hint" := DString (executionHint a)]> opts in
  Returned opts.

(** [func (a *DiversifiedSamplerAggregation) Source() (interface{}, error)];
    [subAggregations] is the node's child map. *)
Definition Source (a : t) (subAggregations : gmap string Aggregation)
  (childSource : loc → outcome doc) : outcome doc :=
  opts ← options a;
  let source : gmap string doc := {[ "diversified_sampler" := DMap opts ]} in
  source ← (if decide (0 < size subAggregations)
            then aggsMap ← sourceSubAggregations childSource subAggregations;
                 Returned (<["aggregations" := DMap aggsMap]> source)
            else Returned source);
  let source :=
    if decide (0 < size (meta a)) then <["meta" := DMap (meta a)]> source
    else source in
  Returned (DMap source).
End DiversifiedSamplerAggregation.

Module FilterAggregation.
Local Open Scope string_scope.

(** [type FilterAggregation struct], without the embedded [*tree].  The
    filter is an [elastic.Query]: nil, or a query known by what its
    [Source()] returns. *)
Record t := mk {
  filter : option (outcome doc);
  meta : gmap string doc
}.

(** [NewFilterAggregation] *)
Definition New (h : heap) : loc * t * heap :=
  let '(a, h') := newAggregationTree h in
  (a, mk None ∅, h').

Definition Filter (f : option (outcome doc)) (a : t) : t := mk f (meta a).
Definition Meta (metaData : gmap string doc) (a : t) : t :=
  mk (filter a) metaData.

(** [func (a *FilterAggregation) Source() (interface{}, error)] *)
Definition Source (a : t) (subAggregations : gmap string Aggregation)
  (childSource : loc → outcome doc) : outcome doc :=
  src ← match filter a with
        | None => Panicked NilInterface
        | Some q => q
        end;
  let source : gmap string doc := {[ "filter" := src ]} in
  source ← (if decide (0 < size subAggregations)
            then aggsMap ← sourceSubAggregations childSource subAggregations;
                 Returned (<["aggregations" := DMap aggsMap]> source)
            else Returned source);
  let source :=
    if decide (0 < size (meta a)) then <["meta" := DMap (meta a)]> source
    else source in
  Returned (DMap source).
End FilterAggregation.

Module StatsAggregation.
Local Open Scope string_scope.

(** [type StatsAggregation struct]; of the embedded [*aggregation] the
    methods below use the child map only, which [Source] takes as an
    argument. *)
Record t := mk {
  field : string;
  script : option (outcome doc);
  format : string;
  meta : gmap string doc
}.

(** The options under "stats". *)
Definition options (a : t) : outcome (gmap string doc) :=
  let opts : gmap string doc := ∅ in
  let opts :=
    if decide (field a = "") then opts
    else <["field" := DString (field a)]> opts in
  opts ← match script a with
         | None => Returned opts
         | Some s => src ← s; Returned (<["script" := src]> opts)
         end;
  let opts :=
    if decide (format a = "") then opts
    else <["format" := DString (format a)]> opts in
  Returned opts.

(** [func (a *StatsAggregation) Source() (interface{}, error)] *)
Definition Source (a : t) (subAggregations : gmap string Aggregation)
  (childSource : loc → outcome doc) : outcome doc :=
  opts ← options a;
  let source : gmap string doc := {[ "stats" := DMap opts ]} in
  source ← (if decide (0 < size subAggregations)
            then aggsMap ← sourceSubAggregations childSource subAggregations;
                 Returned (<["aggregations" := DMap aggsMap]> source)
            else Returned source);
  let source :=
    if decide (0 < size (meta a)) then <["meta" := DMap (meta a)]> source
    else source in
  Returned (DMap source).
End StatsAggregation.

Module ValueCountAggregation.
Local Open Scope string_scope.

(** [type ValueCountAggregation struct]; as for [StatsAggregation], the
    child map of the embedded [*aggregation] is an argument of [Source]. *)
Record t := mk {
  field : string;
  script : option (outcome doc);
  format : string;
  meta : gmap string doc
}.

(** The options under "value_count". *)
Definition options (a : t) : outcome (gmap string doc) :=
  let opts : gmap string doc := ∅ in
  let opts :=
    if decide (field a = "") then opts
    else <["field" := DString (field a)]> opts in
  opts ← match script a with
         | None => Returned opts
         | Some s => src ← s; Returned (<["script" := src]> opts)
         end;
  let opts :=
    if decide (format a = "") then opts
    else <["format" := DString (format a)]> opts in
  Returned opts.

(** [func (a *ValueCountAggregation) Source() (interface{}, error)] *)
Definition Source (a : t) (subAggregations : gmap string Aggregation)
  (childSource : loc → outcome doc) : outcome doc :=
  opts ← options a;
  let source : gmap string doc := {[ "value_count" := DMap opts ]} in
  source ← (if decide (0 < size subAggregations)
            then aggsMap ← sourceSubAggregations childSource subAggregations;
                 Returned (<["aggregations" := DMap aggsMap]> source)
            else Returned source);
  let source :=
    if decide (0 < size (meta a)) then <["meta" := DMap (meta a)]> source
    else source in
  Returned (DMap source).
End ValueCountAggregation.

(** ** Reading rendered documents *)




(** ** Unfolding lemmas *)

Lemma Inject_single h a n name :
  Inject h a n [name] =
  match h !! a with
  | None => Panic NilTree
  | Some t =>
      Ok (None, <[a := mkTree (root t) (<[name := n]> (subAggregations t))]> h)
  end.
Proof. now simp Inject. Qed.

Lemma Inject_deep h a n path :
  2 ≤ length path →
  Inject h a n path =
  (cursor ← Select h a (init path);
   isnil ← IsNilTree h cursor;
   if (isnil : bool) then Ok (Some ErrPathNotSelectable, h)
   else call cursor (λ c, Inject h c n [final path])).
Proof.
  destruct path as [|x [|y rest]]; simpl; try lia.
  intros _. now simp Inject.
Qed.

Lemma init_final (p : list string) : p ≠ [] → p = init p ++ [final p].
Proof. intros H. apply app_removelast_last. exact H. Qed.

Lemma init_snoc (q : list string) k : init (q ++ [k]) = q.
Proof. apply removelast_last. Qed.

Lemma final_snoc (q : list string) k : final (q ++ [k]) = k.
Proof. unfold final. apply last_last. Qed.

Lemma Select_single h a k :
  Select h a [k] =
  match h !! a with
  | None => Panic NilTree
  | Some t => Ok (default nilAgg (subAggregations t !! k))
  end.
Proof. simpl. destruct (h !! a) as [t|]; [|done]. by destruct (_ !! k). Qed.

Lemma Pop_single h a k :
  Pop h a [k] =
  match h !! a with
  | None => Panic NilTree
  | Some t =>
      match subAggregations t !! k with
      | None => Ok (nilAgg, h)
      | Some v => Ok (v, set_subs h a t (delete k (subAggregations t)))
      end
  end.
Proof. reflexivity. Qed.

(** Selecting [q ++ [k]] is selecting [q] and then [k] below it. *)
Lemma Select_snoc h q : ∀ a c k,
  q ≠ [] → Select h a q = Ok (Some c) →
  Select h a (q ++ [k]) = Select h c [k].
Proof.
  induction q as [|x q IH]; intros a c k Hne Hsel; [done|].
  cbn [Select app] in *.
  destruct (h !! a) as [t|]; [|done].
  destruct (subAggregations t !! x) as [v|]; [|done].
  destruct q as [|y q].
  - injection Hsel as ->. reflexivity.
  - destruct v as [l|]; [|done]. cbn [call] in *.
    change ((y :: q) ++ [k]) with (y :: q ++ [k]) in IH.
    cbn [app]. cbn [call]. apply IH; [done|exact Hsel].
Qed.

Lemma Pop_snoc h q : ∀ a c k,
  q ≠ [] → Select h a q = Ok (Some c) →
  Pop h a (q ++ [k]) = Pop h c [k].
Proof.
  induction q as [|x q IH]; intros a c k Hne Hsel; [done|].
  cbn [Select Pop app] in *.
  destruct (h !! a) as [t|]; [|done].
  destruct (subAggregations t !! x) as [v|]; [|done].
  destruct q as [|y q].
  - injection Hsel as ->. reflexivity.
  - destruct v as [l|]; [|done]. cbn [call] in *.
    cbn [app]. cbn [call]. apply IH; [done|exact Hsel].
Qed.

Lemma Select_via_parent h a p c :
  p ≠ [] → parent h a p = Ok (Some c) → Select h a p = Select h c [final p].
Proof.
  intros Hne Hpar. rewrite (init_final p Hne) at 1.
  unfold parent in Hpar. destruct (init p) as [|x q] eqn:Hq.
  - injection Hpar as ->. reflexivity.
  - by apply Select_snoc.
Qed.

Lemma Pop_via_parent h a p c :
  p ≠ [] → parent h a p = Ok (Some c) → Pop h a p = Pop h c [final p].
Proof.
  intros Hne Hpar. rewrite (init_final p Hne) at 1.
  unfold parent in Hpar. destruct (init p) as [|x q] eqn:Hq.
  - injection Hpar as ->. reflexivity.
  - by apply Pop_snoc.
Qed.

(** [Select] depends only on the nodes of its trail. *)
Lemma Select_frame h h' p : ∀ a,
  (∀ l, l ∈ trail h a p → h' !! l = h !! l) →
  Select h' a p = Select h a p.
Proof.
  induction p as [|x p IH]; intros a Hag; [done|].
  cbn [Select trail] in *.
  rewrite (Hag a) by apply list_elem_of_here.
  destruct (h !! a) as [t|]; [|done].
  destruct (subAggregations t !! x) as [v|]; [|done].
  destruct p as [|y p]; [done|].
  destruct v as [l|]; [|done]. cbn [call].
  apply IH. intros l' Hl'. apply Hag. by apply list_elem_of_further.
Qed.

Lemma parent_frame h h' a p :
  (∀ l, l ∈ trail h a (init p) → h' !! l = h !! l) →
  parent h' a p = parent h a p.
Proof.
  intros Hag. unfold parent. destruct (init p) eqn:Hq; [done|].
  rewrite <- Hq in *. by apply Select_frame.
Qed.

Lemma parent_fresh h a p c :
  p ≠ [] → parent_revisited h a p = false →
  parent h a p = Ok (Some c) → c ∉ trail h a (init p).
Proof.
  intros Hne Hrev Hpar. unfold parent_revisited, parent in *.
  destruct (init p) as [|x q] eqn:Hq.
  - intros Hin. by apply elem_of_nil in Hin.
  - rewrite Hpar in Hrev. by apply bool_decide_eq_false in Hrev.
Qed.

Lemma AggsSelect_deep h (c : collection) x y rest :
  AggsSelect h (Some c) (x :: y :: rest) =
  match entries c !! x with
  | None => Ok nilAgg
  | Some base => call base (λ l, Select h l (y :: rest))
  end.
Proof. reflexivity. Qed.

Lemma AggsPop_deep h (c : collection) x y rest :
  AggsPop h (Some c) (x :: y :: rest) =
  match entries c !! x with
  | None => Ok (nilAgg, h, Some c)
  | Some base =>
      '(r, h') ← call base (λ l, Pop h l (y :: rest)); Ok (r, h', Some c)
  end.
Proof. reflexivity. Qed.

Lemma AggsInject_deep h (c : collection) n x y rest :
  AggsInject h (Some c) n (x :: y :: rest) =
  match entries c !! x with
  | None => Ok (Some ErrAggIsNotInjectable, h, Some c)
  | Some base =>
      '(e, h') ← call base (λ l, Inject h l n (y :: rest)); Ok (e, h', Some c)
  end.
Proof. reflexivity. Qed.

Lemma AggsInjectX_deep h (c : collection) n x y rest :
  AggsInjectX h (Some c) n (x :: y :: rest) =
  match entries c !! x with
  | None => Ok (Some ErrAggIsNotInjectable, h, Some c)
  | Some base =>
      '(e, h') ← call base (λ l, InjectX h l n (y :: rest)); Ok (e, h', Some c)
  end.
Proof. reflexivity. Qed.

Lemma AggsSelect_single h (c : collection) x :
  AggsSelect h (Some c) [x] = Ok (default nilAgg (entries c !! x)).
Proof. cbn. by destruct (entries c !! x). Qed.

Lemma AggsPop_single h (c : collection) x :
  AggsPop h (Some c) [x] =
  match entries c !! x with
  | None => Ok (nilAgg, h, Some c)
  | Some base => Ok (base, h, Some (Made (delete x (entries c))))
  end.
Proof. reflexivity. Qed.

Lemma AggsInject_single h (c : collection) n x :
  AggsInject h (Some c) n [x] =
  match c with
  | NilMap => Panic NilMapWrite
  | Made m => Ok (None, h, Some (Made (<[x := n]> m)))
  end.
Proof. by destruct c. Qed.

Lemma AggsInjectX_single h (c : collection) n x :
  AggsInjectX h (Some c) n [x] =
  match c with
  | NilMap => Panic NilMapWrite
  | Made m =>
      match m !! x with
      | None => Ok (None, h, Some (Made (<[x := n]> m)))
      | Some _ => Ok (None, h, Some c)
      end
  end.
Proof. destruct c as [|m]; [done|]. cbn. by destruct (m !! x). Qed.

Lemma InjectX_nonempty h a n x rest :
  InjectX h a n (x :: rest) =
  (alreadyInjected ← Select h a (x :: rest);
   isnil ← IsNilTree h alreadyInjected;
   if (isnil : bool) then Inject h a n (x :: rest) else Ok (None, h)).
Proof. reflexivity. Qed.

(** ** What [Inject] does to the store *)

Lemma parent_deep h a p :
  2 ≤ length p → parent h a p = Select h a (init p).
Proof.
  destruct p as [|x [|y rest]]; simpl; try lia. intros _. reflexivity.
Qed.

Lemma parent_single h a k : parent h a [k] = Ok (Some a).
Proof. reflexivity. Qed.

Lemma IsNilTree_false h v :
  IsNilTree h v = Ok false →
  ∃ l t, v = Some l ∧ h !! l = Some t ∧ root t ≠ nilAgg.
Proof.
  destruct v as [l|]; [|done]. unfold IsNilTree, Export.
  destruct (h !! l) as [t|] eqn:Hl; [|done]. cbn.
  intros [= Hd]. apply bool_decide_eq_false in Hd. by exists l, t.
Qed.

(** A successful [Inject] stores the node under the last name in the child
    map of the path's parent and touches nothing else. *)
Lemma Inject_ok h a n p h' :
  Inject h a n p = Ok (None, h') →
  ∃ c tc, parent h a p = Ok (Some c) ∧ h !! c = Some tc ∧
          h' = set_subs h c tc (<[final p := n]> (subAggregations tc)).
Proof.
  destruct p as [|x [|y rest]].
  - by simp Inject.
  - rewrite Inject_single. destruct (h !! a) as [t|] eqn:Ha; [|done].
    intros [= <-]. exists a, t. by rewrite parent_single.
  - rewrite Inject_deep by (simpl; lia). rewrite parent_deep by (simpl; lia).
    destruct (Select h a (init (x :: y :: rest))) as [cursor|] eqn:Hsel; [|done].
    cbn. destruct (IsNilTree h cursor) as [[|]|] eqn:Hnil; cbn; try done.
    destruct cursor as [c|]; [|done]. cbn. rewrite Inject_single.
    destruct (h !! c) as [t|] eqn:Hc; [|done].
    intros [= <-]. by exists c, t.
Qed.

(** Whatever error [Inject] returns, it returns it with the store as it was. *)
Lemma Inject_err h a n p e h' :
  Inject h a n p = Ok (Some e, h') → h' = h.
Proof.
  destruct p as [|x [|y rest]].
  - simp Inject. by intros [= _ <-].
  - rewrite Inject_single. by destruct (h !! a).
  - rewrite Inject_deep by (simpl; lia).
    destruct (Select h a (init (x :: y :: rest))) as [cursor|]; [|done].
    cbn. destruct (IsNilTree h cursor) as [[|]|]; cbn; try done.
    + by intros [= _ <-].
    + destruct cursor as [c|]; [|done]. cbn. rewrite Inject_single.
      by destruct (h !! c).
Qed.

(** [Inject] returns: a parent that is a present node accepts the entry. *)
Lemma Inject_returns h a n p c tc :
  p ≠ [] → parent h a p = Ok (Some c) → h !! c = Some tc →
  (2 ≤ length p → root tc ≠ nilAgg) →
  Inject h a n p =
  Ok (None, set_subs h c tc (<[final p := n]> (subAggregations tc))).
Proof.
  intros Hne Hpar Hc Hroot. destruct p as [|x [|y rest]]; [done| |].
  - rewrite parent_single in Hpar. injection Hpar as ->.
    rewrite Inject_single, Hc. reflexivity.
  - rewrite Inject_deep by (simpl; lia).
    rewrite parent_deep in Hpar by (simpl; lia). rewrite Hpar. cbn.
    unfold Export. rewrite Hc. cbn.
    rewrite bool_decide_eq_false_2 by (apply Hroot; simpl; lia).
    rewrite Inject_single, Hc. reflexivity.
Qed.

(** ** Reading a path after its parent's child map changed *)

Section parent_updated.
Context (h : heap) (a c : loc) (p : list string) (tc : tree).
Context (m' : gmap string Aggregation).
Hypothesis Hne : p ≠ [].
Hypothesis Hpar : parent h a p = Ok (Some c).
Hypothesis Hfresh : c ∉ trail h a (init p).
Hypothesis Hc : h !! c = Some tc.

Lemma parent_after_set : parent (set_subs h c tc m') a p = Ok (Some c).
Proof.
  rewrite <- Hpar. apply parent_frame. intros l Hl.
  unfold set_subs. apply lookup_insert_ne. intros ->. by apply Hfresh.
Qed.

Lemma Select_after_set :
  Select (set_subs h c tc m') a p = Ok (default nilAgg (m' !! final p)).
Proof.
  rewrite (Select_via_parent _ _ _ c Hne parent_after_set).
  rewrite Select_single. unfold set_subs. by rewrite lookup_insert_eq.
Qed.

Lemma Pop_after_set :
  Pop (set_subs h c tc m') a p =
  match m' !! final p with
  | None => Ok (nilAgg, set_subs h c tc m')
  | Some v => Ok (v, set_subs h c tc (delete (final p) m'))
  end.
Proof.
  rewrite (Pop_via_parent _ _ _ c Hne parent_after_set).
  rewrite Pop_single. unfold set_subs at 1. rewrite lookup_insert_eq. cbn.
  destruct (m' !! final p); [|done].
  unfold set_subs. cbn. by rewrite insert_insert_eq.
Qed.
End parent_updated.

(** ** Trees without loops *)

(** In a store without loops the selected node lies deeper than every node
    read on the way to it, so it is never one of them. *)
Lemma acyclic_trail_depth h (depth : loc → nat) :
  (∀ l k c, child h l k = Some c → depth l < depth c) →
  ∀ q a c, q ≠ [] → Select h a q = Ok (Some c) →
           ∀ l, l ∈ trail h a q → depth l < depth c.
Proof.
  intros Hd. induction q as [|x q IH]; intros a c Hne Hsel l Hl; [done|].
  cbn [Select trail] in *.
  destruct (h !! a) as [t|] eqn:Ha; [|done].
  destruct (subAggregations t !! x) as [v|] eqn:Hx; [|done].
  destruct q as [|y q].
  - injection Hsel as ->.
    assert (child h a x = Some c) as Hch.
    { unfold child. rewrite Ha. cbn. rewrite Hx. reflexivity. }
    apply elem_of_cons in Hl as [->|Hl]; [by apply (Hd _ x)|].
    by apply elem_of_nil in Hl.
  - destruct v as [l1|]; [|done]. cbn [call] in Hsel.
    assert (child h a x = Some l1) as Hch.
    { unfold child. rewrite Ha. cbn. rewrite Hx. reflexivity. }
    assert (depth l1 < depth c) as Hl1.
    { apply (IH l1 c); [done|exact Hsel|]. cbn [trail]. apply list_elem_of_here. }
    apply elem_of_cons in Hl as [->|Hl].
    + apply Hd in Hch. lia.
    + by apply (IH l1 c).
Qed.

Lemma acyclic_not_revisited h a p :
  acyclic h → parent_revisited h a p = false.
Proof.
  intros [depth Hd]. unfold parent_revisited.
  destruct (Select h a (init p)) as [[c|]|] eqn:Hsel; try done.
  apply bool_decide_eq_false. intros Hin.
  destruct (init p) as [|x q] eqn:Hq; [done|].
  pose proof (acyclic_trail_depth h depth Hd (x :: q) a c) as Hlt.
  specialize (Hlt ltac:(done) Hsel c Hin). lia.
Qed.

(** ** Inject, then Select or Pop *)

(** C1 (as amended).  For every node adapter, every non-empty path [p] and
    every node [n]: if [Inject(n, p)] returns success and the node that
    received the entry is not itself read on the way down [p] (true in every
    tree without loops, and always for a one-name path), then [Select(p)]
    immediately afterwards returns [n] itself. *)
Theorem Inject_then_Select h a n p h' :
  p ≠ [] →
  Inject h a n p = Ok (None, h') →
  parent_revisited h a p = false →
  Select h' a p = Ok n.
Proof.
  intros Hne Hinj Hrev.
  apply Inject_ok in Hinj as (c & tc & Hpar & Hc & ->).
  pose proof (parent_fresh _ _ _ _ Hne Hrev Hpar) as Hfresh.
  rewrite (Select_after_set h a c p tc _ Hne Hpar Hfresh Hc).
  by rewrite lookup_insert_eq.
Qed.

Lemma Inject_then_Select_witness :
  path_ab ≠ [] ∧
  Inject nested n1 (Some n3) path_ab = Ok (None, nested_injected) ∧
  parent_revisited nested n1 path_ab = false ∧
  Select nested_injected n1 path_ab = Ok (Some n3).
Proof.
  assert (path_ab ≠ []) as H1 by discriminate.
  assert (Inject nested n1 (Some n3) path_ab = Ok (None, nested_injected))
    as H2 by (vm_compute; reflexivity).
  assert (parent_revisited nested n1 path_ab = false) as H3
    by (vm_compute; reflexivity).
  exact (conj H1 (conj H2 (conj H3
    (Inject_then_Select nested n1 (Some n3) path_ab nested_injected
       H1 H2 H3)))).
Defined.

(** C1 fails as stated: a node that was injected into itself under "x"
    accepts [Inject(n2, "x", "x")], which overwrites the very entry the
    path starts with; [Select("x", "x")] then looks for "x" below [n2] and
    returns nil, not [n2]. *)
Lemma Inject_then_Select_counterexample :
  Inject two_nodes n1 (Some n1) path_x = Ok (None, looped) ∧
  ('(e, h') ← Inject looped n1 (Some n2) path_xx;
   r ← Select h' n1 path_xx;
   Ok (e, r)) = Ok (None, nilAgg).
Proof. split; vm_compute; reflexivity. Qed.

(** C6 (as amended).  For every non-empty path [p] and node [n]: after
    [Inject(n, p)] succeeds, and provided the node that received the entry
    is not itself read on the way down [p], [Pop(p)] returns [n] and
    afterwards [Select(p)] returns nil. *)
Theorem Inject_then_Pop h a n p h1 :
  p ≠ [] →
  Inject h a n p = Ok (None, h1) →
  parent_revisited h a p = false →
  ∃ h2, Pop h1 a p = Ok (n, h2) ∧ Select h2 a p = Ok nilAgg.
Proof.
  intros Hne Hinj Hrev.
  apply Inject_ok in Hinj as (c & tc & Hpar & Hc & ->).
  pose proof (parent_fresh _ _ _ _ Hne Hrev Hpar) as Hfresh.
  eexists. split.
  - rewrite (Pop_after_set h a c p tc _ Hne Hpar Hfresh Hc).
    rewrite lookup_insert_eq. reflexivity.
  - rewrite (Select_after_set h a c p tc _ Hne Hpar Hfresh Hc).
    by rewrite lookup_delete_eq.
Qed.

Lemma Inject_then_Pop_witness :
  path_ab ≠ [] ∧
  Inject nested n1 (Some n3) path_ab = Ok (None, nested_injected) ∧
  parent_revisited nested n1 path_ab = false ∧
  ∃ h2, Pop nested_injected n1 path_ab = Ok (Some n3, h2) ∧
        Select h2 n1 path_ab = Ok nilAgg.
Proof.
  assert (path_ab ≠ []) as H1 by discriminate.
  assert (Inject nested n1 (Some n3) path_ab = Ok (None, nested_injected))
    as H2 by (vm_compute; reflexivity).
  assert (parent_revisited nested n1 path_ab = false) as H3
    by (vm_compute; reflexivity).
  exact (conj H1 (conj H2 (conj H3
    (Inject_then_Pop nested n1 (Some n3) path_ab nested_injected
       H1 H2 H3)))).
Defined.

(** C6 fails as stated on the same looped node: after the successful
    [Inject(n2, "x", "x")], [Pop("x", "x")] finds no "x" below [n2] and
    returns nil instead of [n2]. *)
Lemma Inject_then_Pop_counterexample :
  Inject two_nodes n1 (Some n1) path_x = Ok (None, looped) ∧
  ('(e, h1) ← Inject looped n1 (Some n2) path_xx;
   '(r, _) ← Pop h1 n1 path_xx;
   Ok (e, r)) = Ok (None, nilAgg).
Proof. split; vm_compute; reflexivity. Qed.

(** ** Errors of Inject *)

(** C7 (as amended).  [Inject] with an empty path returns [ErrNoPath] and
    leaves all state unchanged, on the node adapter and on a root collection
    that is present; on an absent collection the guard that runs first
    returns [ErrAggIsNotInjectable] instead, again with the state unchanged. *)
Theorem Inject_empty_path h n :
  (∀ a, Inject h a n [] = Ok (Some ErrNoPath, h)) ∧
  (∀ coll : collection,
     AggsInject h (Some coll) n [] = Ok (Some ErrNoPath, h, Some coll)) ∧
  AggsInject h None n [] = Ok (Some ErrAggIsNotInjectable, h, None).
Proof.
  split; [|split].
  - intros a. by simp Inject.
  - reflexivity.
  - reflexivity.
Qed.

(** C7 fails as stated on an absent root collection: the empty path is not
    even looked at and the error is [ErrAggIsNotInjectable]. *)
Lemma Inject_empty_path_counterexample :
  AggsInject two_nodes None (Some n1) [] =
    Ok (Some ErrAggIsNotInjectable, two_nodes, None) ∧
  AggsInject two_nodes None (Some n1) [] ≠ Ok (Some ErrNoPath, two_nodes, None).
Proof. split; [reflexivity|discriminate]. Qed.

(** A name missing on the way makes [Select] return nil. *)
Lemma unresolved_Select h p : ∀ a,
  unresolved h a p = true → Select h a p = Ok nilAgg.
Proof.
  induction p as [|x p IH]; intros a Hun; [done|].
  cbn [Select unresolved] in *.
  destruct (h !! a) as [t|]; [|done].
  destruct (subAggregations t !! x) as [v|]; [|done].
  destruct p as [|y p]; [done|].
  destruct v as [l|]; [|done]. cbn [call]. by apply IH.
Qed.

(** C4 (as amended).  For every node adapter and every path of length at
    least two: when [Select] of all but the last name returns a nil tree (an
    absent node or a degenerate one), [Inject] returns
    [ErrPathNotSelectable], creates nothing and leaves the store unchanged;
    that error is returned in no other case; and it is what a name missing
    among the intermediate segments leads to. *)
Theorem Inject_parent_not_selectable h a n p :
  2 ≤ length p →
  (Inject h a n p = Ok (Some ErrPathNotSelectable, h) ↔
   ∃ v, Select h a (init p) = Ok v ∧ IsNilTree h v = Ok true) ∧
  (unresolved h a (init p) = true →
   Inject h a n p = Ok (Some ErrPathNotSelectable, h)).
Proof.
  intros Hlen. rewrite Inject_deep by done. split; [split|].
  - destruct (Select h a (init p)) as [cursor|]; [|done]. cbn.
    destruct (IsNilTree h cursor) as [[|]|] eqn:Hnil; cbn; try done.
    + intros _. by exists cursor.
    + destruct cursor as [c|]; [|done]. cbn. rewrite Inject_single.
      by destruct (h !! c).
  - intros (v & -> & Hnil). cbn. rewrite Hnil. reflexivity.
  - intros Hun. by rewrite (unresolved_Select h (init p) a Hun).
Qed.

Lemma Inject_parent_not_selectable_witness :
  2 ≤ length path_abc ∧
  unresolved two_nodes n1 (init path_abc) = true ∧
  Inject two_nodes n1 (Some n2) path_abc =
    Ok (Some ErrPathNotSelectable, two_nodes).
Proof.
  assert (2 ≤ length path_abc) as H1 by (simpl; lia).
  assert (unresolved two_nodes n1 (init path_abc) = true) as H2
    by (vm_compute; reflexivity).
  destruct (Inject_parent_not_selectable two_nodes n1 (Some n2) path_abc H1)
    as [_ Hmissing].
  exact (conj H1 (conj H2 (Hmissing H2))).
Defined.

(** C4 fails as stated for longer paths, where only the last intermediate
    node is tested: [Select] walks through the degenerate "a" to the present
    node "a"/"b", and [Inject(n4, "a", "b", "c")] succeeds and changes the
    store.  (When "a" holds a nil interface, the same call panics inside
    [Select].) *)
Lemma Inject_parent_not_selectable_counterexample :
  Select through_degenerate n1 path_a = Ok (Some n2) ∧
  IsNilTree through_degenerate (Some n2) = Ok true ∧
  Inject through_degenerate n1 (Some n4) path_abc =
    Ok (None, set_subs through_degenerate n3 (nilAggregationTree (Some n3))
                       {[ "c"%string := Some n4 ]}) ∧
  Inject two_nodes n1 nilAgg path_a = Ok (None, nil_entry) ∧
  Inject nil_entry n1 (Some n2) path_abc = Panic NilInterface.
Proof. repeat split; vm_compute; reflexivity. Qed.

(** ** Inject on the root collection *)

(** C3 (as amended).  Root-collection [Inject]: an absent collection gives
    [ErrAggIsNotInjectable]; a one-name path inserts or overwrites directly,
    provided the collection's map has been allocated; a longer path gives
    [ErrAggIsNotInjectable] when its first name is not a key of the
    collection (as on a collection that is still the nil map), and
    otherwise is the first entry's own [Inject] on the remaining path, with
    the collection itself untouched -- so it succeeds when that entry
    accepts the rest, as it does for one more name. *)
Theorem AggsInject_cases h n :
  (∀ p, AggsInject h None n p = Ok (Some ErrAggIsNotInjectable, h, None)) ∧
  (∀ (m : Aggregations) x,
     AggsInject h (Some (Made m)) n [x] =
       Ok (None, h, Some (Made (<[x := n]> m)))) ∧
  (∀ c x y rest, entries c !! x = None →
     AggsInject h (Some c) n (x :: y :: rest) =
       Ok (Some ErrAggIsNotInjectable, h, Some c)) ∧
  (∀ c x y rest base, entries c !! x = Some base →
     AggsInject h (Some c) n (x :: y :: rest) =
       ('(e, h') ← call base (λ l, Inject h l n (y :: rest));
        Ok (e, h', Some c))) ∧
  (∀ c x y l t, entries c !! x = Some (Some l) → h !! l = Some t →
     AggsInject h (Some c) n [x; y] =
       Ok (None, set_subs h l t (<[y := n]> (subAggregations t)), Some c)).
Proof.
  repeat split.
  - intros c x y rest Hx. rewrite AggsInject_deep. by rewrite Hx.
  - intros c x y rest base Hx. rewrite AggsInject_deep. by rewrite Hx.
  - intros c x y l t Hx Hl. rewrite AggsInject_deep, Hx. cbn [call].
    rewrite Inject_single, Hl. reflexivity.
Qed.

Lemma AggsInject_cases_witness :
  AggsInject two_nodes (Some (Made one_root)) (Some n2) path_ab =
    Ok (Some ErrAggIsNotInjectable, two_nodes, Some (Made one_root)) ∧
  AggsInject two_nodes (Some NilMap) (Some n2) path_ab =
    Ok (Some ErrAggIsNotInjectable, two_nodes, Some NilMap) ∧
  AggsInject two_nodes (Some (Made one_root)) (Some n2) path_xy =
    Ok (None,
        set_subs two_nodes n1 (nilAggregationTree (Some n1))
                 (<["y"%string := Some n2]> ∅),
        Some (Made one_root)).
Proof.
  destruct (AggsInject_cases two_nodes (Some n2)) as (_ & _ & H3 & _ & H5).
  split; [|split].
  - apply H3. vm_compute. reflexivity.
  - apply H3. vm_compute. reflexivity.
  - apply H5; vm_compute; reflexivity.
Defined.

(** C3 fails as stated on a collection that is still the zero value of its
    type: [var a Aggregations; a.Inject(n1, "x")] passes the nil-pointer
    guard and panics on the assignment to an entry of the nil map instead of
    inserting. *)
Lemma AggsInject_cases_counterexample :
  AggsInject two_nodes (Some NilMap) (Some n1) path_x = Panic NilMapWrite ∧
  AggsInject two_nodes (Some NilMap) (Some n1) path_x ≠
    Ok (None, two_nodes, Some (Made {[ "x"%string := Some n1 ]})).
Proof. split; [reflexivity|discriminate]. Qed.

(** ** Export of the root collection *)

(** What the loop of [Export] has built after ranging over [m]: either the
    export of every entry, under the same keys, or the panic of an entry
    that cannot be exported. *)
Lemma AggsExport_loop h (c : collection) :
  match AggsExport h (Some c) with
  | Ok r =>
      (∀ k, entries c !! k = None → r !! k = None) ∧
      (∀ k v, entries c !! k = Some v →
              ∃ e, call v (Export h) = Ok e ∧ r !! k = Some e)
  | Panic p => ∃ k v, entries c !! k = Some v ∧ call v (Export h) = Panic p
  end.
Proof.
  unfold AggsExport. generalize (entries c). intros m. revert m.
  apply (map_fold_weak_ind
    (λ (acc : result (gmap string Aggregation)) (m : Aggregations),
       match acc with
       | Ok r =>
           (∀ k, m !! k = None → r !! k = None) ∧
           (∀ k v, m !! k = Some v →
                   ∃ e, call v (Export h) = Ok e ∧ r !! k = Some e)
       | Panic p => ∃ k v, m !! k = Some v ∧ call v (Export h) = Panic p
       end)).
  - split; [intros; apply lookup_empty|]. intros k v Hk.
    by rewrite lookup_empty in Hk.
  - intros i x m' acc Hi IH. destruct acc as [r|p]; cbn.
    + destruct IH as [Hnone Hsome].
      destruct (call x (Export h)) as [e|pn] eqn:Hx; cbn.
      * split.
        -- intros k Hk. apply lookup_insert_None in Hk as [Hk Hne].
           rewrite lookup_insert_ne by done. by apply Hnone.
        -- intros k v Hk. destruct (decide (i = k)) as [->|Hne].
           ++ rewrite lookup_insert_eq in Hk. injection Hk as <-.
              exists e. by rewrite lookup_insert_eq.
           ++ rewrite lookup_insert_ne in Hk by done.
              rewrite lookup_insert_ne by done. by apply Hsome.
      * exists i, x. by rewrite lookup_insert_eq.
    + destruct IH as (k & v & Hk & Hv). exists k, v. split; [|done].
      rewrite lookup_insert_ne; [done|]. intros ->. by rewrite Hi in Hk.
Qed.



(** ** The collection must be present for Select and Pop *)

Lemma Select_no_NilCollection h p : ∀ a, Select h a p ≠ Panic NilCollection.
Proof.
  induction p as [|x p IH]; intros a; [done|]. cbn [Select].
  destruct (h !! a) as [t|]; [|done].
  destruct (subAggregations t !! x) as [v|]; [|done].
  destruct p as [|y p]; [done|].
  destruct v as [l|]; [|done]. apply IH.
Qed.

Lemma Pop_no_NilCollection h p : ∀ a, Pop h a p ≠ Panic NilCollection.
Proof.
  induction p as [|x p IH]; intros a; [done|]. cbn [Pop].
  destruct (h !! a) as [t|]; [|done].
  destruct (subAggregations t !! x) as [v|]; [|done].
  destruct p as [|y p]; [done|].
  destruct v as [l|]; [|done]. apply IH.
Qed.

Lemma IsNilTree_no_NilCollection h v : IsNilTree h v ≠ Panic NilCollection.
Proof.
  destruct v as [l|]; [|done]. unfold IsNilTree, Export.
  by destruct (h !! l).
Qed.

Lemma Inject_no_NilCollection h a n p : Inject h a n p ≠ Panic NilCollection.
Proof.
  destruct p as [|x [|y rest]].
  - by simp Inject.
  - rewrite Inject_single. by destruct (h !! a).
  - rewrite Inject_deep by (simpl; lia).
    pose proof (Select_no_NilCollection h (init (x :: y :: rest)) a) as Hs.
    destruct (Select h a (init (x :: y :: rest))) as [cursor|pn]; cbn;
      [|congruence].
    pose proof (IsNilTree_no_NilCollection h cursor) as Hn.
    destruct (IsNilTree h cursor) as [[|]|pn]; cbn; [done| |congruence].
    destruct cursor as [c|]; [|done]. cbn. rewrite Inject_single.
    by destruct (h !! c).
Qed.

Lemma InjectX_no_NilCollection h a n p : InjectX h a n p ≠ Panic NilCollection.
Proof.
  destruct p as [|x rest]; [done|]. rewrite InjectX_nonempty.
  pose proof (Select_no_NilCollection h (x :: rest) a) as Hs.
  destruct (Select h a (x :: rest)) as [v|pn]; cbn; [|congruence].
  pose proof (IsNilTree_no_NilCollection h v) as Hn.
  destruct (IsNilTree h v) as [[|]|pn]; cbn; [|done|congruence].
  apply Inject_no_NilCollection.
Qed.

(** C10.  Root-collection [Select] and [Pop] dereference the collection
    without a guard: on an absent collection every non-empty path runs into
    the nil dereference, so that branch is out of reach for all paths
    exactly when the collection is present.  [Export], [Inject] and
    [InjectX] test for the absent collection first and never reach it. *)
Theorem collection_must_be_present h (a : option collection) :
  ((∀ p, AggsSelect h a p ≠ Panic NilCollection) ↔ a ≠ None) ∧
  ((∀ p, AggsPop h a p ≠ Panic NilCollection) ↔ a ≠ None) ∧
  (∀ x rest, AggsSelect h None (x :: rest) = Panic NilCollection ∧
             AggsPop h None (x :: rest) = Panic NilCollection) ∧
  AggsExport h None = Ok ∅ ∧
  (∀ n p, AggsInject h None n p = Ok (Some ErrAggIsNotInjectable, h, None) ∧
          AggsInjectX h None n p = Ok (Some ErrAggIsNotInjectable, h, None)) ∧
  (∀ n p, AggsExport h a ≠ Panic NilCollection ∧
          AggsInject h a n p ≠ Panic NilCollection ∧
          AggsInjectX h a n p ≠ Panic NilCollection).
Proof.
  split; [|split; [|split; [|split; [|split]]]].
  - split.
    + intros Hall ->. by apply (Hall [EmptyString]).
    + intros Ha p. destruct a as [c|]; [|done].
      destruct p as [|x [|y rest]]; [done|by rewrite AggsSelect_single|].
      rewrite AggsSelect_deep. destruct (entries c !! x) as [base|]; [|done].
      destruct base as [l|]; [|done]. apply Select_no_NilCollection.
  - split.
    + intros Hall ->. by apply (Hall [EmptyString]).
    + intros Ha p. destruct a as [c|]; [|done].
      destruct p as [|x [|y rest]];
        [done|rewrite AggsPop_single; by destruct (entries c !! x)|].
      rewrite AggsPop_deep. destruct (entries c !! x) as [base|]; [|done].
      destruct base as [l|]; [|done]. cbn [call].
      pose proof (Pop_no_NilCollection h (y :: rest) l) as Hp.
      destruct (Pop h l (y :: rest)) as [[r h']|pn]; [done|].
      cbn. congruence.
  - done.
  - reflexivity.
  - done.
  - intros n p. split; [|split].
    + destruct a as [c|]; [|done].
      pose proof (AggsExport_loop h c) as Hloop.
      destruct (AggsExport h (Some c)) as [r|pn]; [done|].
      destruct Hloop as (k & v & _ & Hv). intros [= ->].
      destruct v as [l|]; [|done]. cbn in Hv. unfold Export in Hv.
      by destruct (h !! l).
    + destruct a as [c|]; [|done]. destruct p as [|x [|y rest]]; [done| |].
      { rewrite AggsInject_single. by destruct c. }
      rewrite AggsInject_deep. destruct (entries c !! x) as [base|]; [|done].
      destruct base as [l|]; [|done]. cbn [call].
      pose proof (Inject_no_NilCollection h l n (y :: rest)) as Hi.
      destruct (Inject h l n (y :: rest)) as [[e h']|pn]; [done|].
      cbn. congruence.
    + destruct a as [c|]; [|done]. destruct p as [|x [|y rest]]; try done.
      * rewrite AggsInjectX_single. destruct c as [|m]; [done|].
        by destruct (m !! x).
      * rewrite AggsInjectX_deep. destruct (entries c !! x) as [base|]; [|done].
        destruct base as [l|]; [|done]. cbn [call].
        pose proof (InjectX_no_NilCollection h l n (y :: rest)) as Hi.
        destruct (InjectX h l n (y :: rest)) as [[e h']|pn]; [done|].
        cbn. congruence.
Qed.

Lemma collection_must_be_present_witness :
  Some (Made one_root) ≠ None ∧
  ∀ p, AggsSelect two_nodes (Some (Made one_root)) p ≠ Panic NilCollection.
Proof.
  assert (Some (Made one_root) ≠ None) as H1 by discriminate.
  split; [exact H1|].
  destruct (collection_must_be_present two_nodes (Some (Made one_root)))
    as [[_ Hpresent] _].
  exact (Hpresent H1).
Defined.

(** ** Pop *)

Lemma final_cons x (rest : list string) :
  rest ≠ [] → final (x :: rest) = final rest.
Proof. destruct rest; [done|reflexivity]. Qed.

Lemma init_cons x (rest : list string) :
  rest ≠ [] → init (x :: rest) = x :: init rest.
Proof. destruct rest; [done|reflexivity]. Qed.

Lemma parent_cons h a t x l rest :
  h !! a = Some t → subAggregations t !! x = Some (Some l) → rest ≠ [] →
  parent h a (x :: rest) = parent h l rest.
Proof.
  intros Ha Hx Hne. unfold parent. rewrite init_cons by done.
  destruct (init rest) as [|z q].
  - cbn. by rewrite Ha, Hx.
  - cbn [Select]. by rewrite Ha, Hx.
Qed.


(** A path that does not resolve pops nothing. *)
Lemma Pop_unresolved h p : ∀ a,
  unresolved h a p = true → Pop h a p = Ok (nilAgg, h).
Proof.
  induction p as [|x p IH]; intros a Hun; [done|].
  cbn [Pop unresolved] in *.
  destruct (h !! a) as [t|]; [|done].
  destruct (subAggregations t !! x) as [v|]; [|done].
  destruct p as [|y p]; [done|].
  destruct v as [l|]; [|done]. cbn [call]. by apply IH.
Qed.

(** Whenever [Pop] returns, it did one of the two. *)
Lemma Pop_inv h p : ∀ a v h',
  Pop h a p = Ok (v, h') →
  (unresolved h a p = true ∧ v = nilAgg ∧ h' = h) ∨
  (∃ c tc, parent h a p = Ok (Some c) ∧ h !! c = Some tc ∧
           subAggregations tc !! final p = Some v ∧
           h' = set_subs h c tc (delete (final p) (subAggregations tc))).
Proof.
  induction p as [|x p IH]; intros a v h' Hpop.
  { left. by injection Hpop as <- <-. }
  cbn [Pop unresolved] in *.
  destruct (h !! a) as [t|] eqn:Ha; [|done].
  destruct (subAggregations t !! x) as [w|] eqn:Hx.
  2:{ left. by injection Hpop as <- <-. }
  destruct p as [|y p].
  - right. injection Hpop as <- <-. exists a, t. by rewrite parent_single.
  - destruct w as [l|]; [|done]. cbn [call] in Hpop.
    destruct (IH l v h' Hpop) as [Hun|(c & tc & Hpar & Hc & Hv & ->)].
    + by left.
    + right. exists c, tc.
      rewrite (parent_cons h a t x l) by done.
      by rewrite final_cons.
Qed.





(** ** InjectX *)

(** Replacing a child map keeps every root, hence every nil-tree verdict. *)
Lemma IsNilTree_set_subs h c tc (m' : gmap string Aggregation) v :
  h !! c = Some tc → IsNilTree (set_subs h c tc m') v = IsNilTree h v.
Proof.
  intros Hc. destruct v as [l|]; [|done]. unfold IsNilTree, Export, set_subs.
  destruct (decide (c = l)) as [->|Hne].
  - by rewrite lookup_insert_eq, Hc.
  - by rewrite lookup_insert_ne.
Qed.

(** On the node adapter a second [InjectX] at the same path changes
    nothing, once the first one has put a present node there. *)
Lemma InjectX_again h a n n2 p h1 :
  InjectX h a n p = Ok (None, h1) →
  IsNilTree h n = Ok false →
  parent_revisited h a p = false →
  InjectX h1 a n2 p = Ok (None, h1) ∧
  (∀ v, Select h a p = Ok v → IsNilTree h v = Ok true → Select h1 a p = Ok n).
Proof.
  intros Hfirst Hn Hrev. destruct p as [|x rest]; [done|].
  rewrite InjectX_nonempty in Hfirst.
  destruct (Select h a (x :: rest)) as [v0|] eqn:Hsel; [|done].
  cbn in Hfirst.
  destruct (IsNilTree h v0) as [[|]|] eqn:Hnil; cbn in Hfirst; [| |done].
  - apply Inject_ok in Hfirst as (c & tc & Hpar & Hc & ->).
    assert (x :: rest ≠ []) as Hne by done.
    pose proof (parent_fresh _ _ _ _ Hne Hrev Hpar) as Hfresh.
    assert (Select (set_subs h c tc (<[final (x :: rest) := n]> (subAggregations tc)))
                   a (x :: rest) = Ok n) as Hafter.
    { rewrite (Select_after_set h a c (x :: rest) tc _ Hne Hpar Hfresh Hc).
      by rewrite lookup_insert_eq. }
    split; [|by intros].
    rewrite InjectX_nonempty, Hafter. cbn.
    rewrite (IsNilTree_set_subs h c tc _ n Hc), Hn. reflexivity.
  - injection Hfirst as <-. split.
    + rewrite InjectX_nonempty, Hsel. cbn. rewrite Hnil. reflexivity.
    + intros v [= <-] Hv. congruence.
Qed.

(** C5 (as amended).  When [InjectX(n, p)] succeeds with a node [n] that is
    not a nil tree (and, below the first level, the node receiving the entry
    is not itself read on the way down [p]), an immediately following
    [InjectX(n2, p)] returns success and changes nothing, so [Select(p)]
    stays what it was: [n] whenever the first call found the path
    unoccupied.  This holds for the node adapter and for longer paths on the
    root collection; a one-name path on the root collection needs no
    condition on [n], because there only the key is tested. *)
Theorem InjectX_twice h n n2 :
  (∀ a p h1,
     InjectX h a n p = Ok (None, h1) →
     IsNilTree h n = Ok false →
     parent_revisited h a p = false →
     InjectX h1 a n2 p = Ok (None, h1) ∧
     (∀ v, Select h a p = Ok v → IsNilTree h v = Ok true →
           Select h1 a p = Ok n)) ∧
  (∀ (coll : collection) x h1 a1,
     AggsInjectX h (Some coll) n [x] = Ok (None, h1, a1) →
     AggsInjectX h1 a1 n2 [x] = Ok (None, h1, a1) ∧
     (entries coll !! x = None → AggsSelect h1 a1 [x] = Ok n)) ∧
  (∀ (coll : collection) x y rest h1 a1,
     AggsInjectX h (Some coll) n (x :: y :: rest) = Ok (None, h1, a1) →
     IsNilTree h n = Ok false →
     (∀ l, entries coll !! x = Some (Some l) →
           parent_revisited h l (y :: rest) = false) →
     AggsInjectX h1 a1 n2 (x :: y :: rest) = Ok (None, h1, a1) ∧
     (∀ v, AggsSelect h (Some coll) (x :: y :: rest) = Ok v →
           IsNilTree h v = Ok true →
           AggsSelect h1 a1 (x :: y :: rest) = Ok n)).
Proof.
  split; [|split].
  - intros a p h1. apply InjectX_again.
  - intros coll x h1 a1. rewrite AggsInjectX_single.
    destruct coll as [|m]; [done|]. cbn [entries].
    destruct (m !! x) as [base|] eqn:Hx.
    + intros [= <- <-]. rewrite AggsInjectX_single, Hx. done.
    + intros [= <- <-]. rewrite AggsInjectX_single, AggsSelect_single.
      cbn [entries]. rewrite lookup_insert_eq. done.
  - intros coll x y rest h1 a1 Hfirst Hn Hrev.
    rewrite AggsInjectX_deep in Hfirst.
    destruct (entries coll !! x) as [[l|]|] eqn:Hx; try done.
    cbn [call] in Hfirst.
    destruct (InjectX h l n (y :: rest)) as [[e h1']|] eqn:Hl; [|done].
    cbn in Hfirst. injection Hfirst as -> -> <-.
    destruct (InjectX_again h l n n2 (y :: rest) h1 Hl Hn (Hrev l eq_refl))
      as [Hsecond Hsel].
    split.
    + rewrite AggsInjectX_deep, Hx. cbn [call]. rewrite Hsecond. reflexivity.
    + intros v. rewrite !AggsSelect_deep, Hx. cbn [call]. apply Hsel.
Qed.

Lemma InjectX_twice_witness :
  InjectX two_nodes n1 (Some n2) path_x =
    Ok (None, set_subs two_nodes n1 (nilAggregationTree (Some n1))
                       {[ "x"%string := Some n2 ]}) ∧
  IsNilTree two_nodes (Some n2) = Ok false ∧
  parent_revisited two_nodes n1 path_x = false ∧
  InjectX (set_subs two_nodes n1 (nilAggregationTree (Some n1))
                    {[ "x"%string := Some n2 ]}) n1 (Some n1) path_x =
    Ok (None, set_subs two_nodes n1 (nilAggregationTree (Some n1))
                       {[ "x"%string := Some n2 ]}) ∧
  Select (set_subs two_nodes n1 (nilAggregationTree (Some n1))
                   {[ "x"%string := Some n2 ]}) n1 path_x = Ok (Some n2).
Proof.
  assert (InjectX two_nodes n1 (Some n2) path_x =
            Ok (None, set_subs two_nodes n1 (nilAggregationTree (Some n1))
                               {[ "x"%string := Some n2 ]})) as H1
    by (vm_compute; reflexivity).
  assert (IsNilTree two_nodes (Some n2) = Ok false) as H2
    by (vm_compute; reflexivity).
  assert (parent_revisited two_nodes n1 path_x = false) as H3
    by (vm_compute; reflexivity).
  destruct (InjectX_twice two_nodes (Some n2) (Some n1)) as (Htree & _).
  destruct (Htree n1 path_x _ H1 H2 H3) as [Hsecond Hsel].
  exact (conj H1 (conj H2 (conj H3 (conj Hsecond
    (Hsel nilAgg eq_refl eq_refl))))).
Defined.

(** C5 fails as stated when the first node is a nil tree: the node adapter
    tests what it finds at the path with [IsNilTree], so the degenerate node
    3 (and likewise a nil interface) put under "x" by the first [InjectX] is
    overwritten by the second one, and [Select("x")] returns node 2. *)
Lemma InjectX_twice_counterexample :
  ('(e1, h1) ← InjectX with_degenerate n1 (Some n3) path_x;
   first ← Select h1 n1 path_x;
   '(e2, h2) ← InjectX h1 n1 (Some n2) path_x;
   second ← Select h2 n1 path_x;
   Ok (e1, first, e2, second)) = Ok (None, Some n3, None, Some n2) ∧
  ('(e1, h1) ← InjectX two_nodes n1 nilAgg path_x;
   '(e2, h2) ← InjectX h1 n1 (Some n2) path_x;
   second ← Select h2 n1 path_x;
   Ok (e1, e2, second)) = Ok (None, None, Some n2).
Proof. split; vm_compute; reflexivity. Qed.

(** ** Which presence test each operation applies *)

(** C2 (as amended).  The node adapter applies the nil-tree predicate to
    what [Select] returns: to the parent of a deep [Inject] and to the
    target of [InjectX]; there a degenerate node counts as an absent one.
    The root collection tests only whether the first name is a key of its
    map: an entry that is present, degenerate or not, receives the deep
    [Inject] or [InjectX], and is never replaced by a one-name [InjectX]. *)
Theorem presence_tests h n :
  (∀ a p v, 2 ≤ length p → Select h a (init p) = Ok v →
            IsNilTree h v = Ok true →
            Inject h a n p = Ok (Some ErrPathNotSelectable, h)) ∧
  (∀ a p v, p ≠ [] → Select h a p = Ok v → IsNilTree h v = Ok true →
            InjectX h a n p = Inject h a n p) ∧
  (∀ a p v, p ≠ [] → Select h a p = Ok v → IsNilTree h v = Ok false →
            InjectX h a n p = Ok (None, h)) ∧
  (∀ (coll : collection) x y l t,
     entries coll !! x = Some (Some l) → h !! l = Some t →
     AggsInject h (Some coll) n [x; y] =
       Ok (None, set_subs h l t (<[y := n]> (subAggregations t)),
           Some coll)) ∧
  (∀ (coll : collection) x y rest base, entries coll !! x = Some base →
     AggsInjectX h (Some coll) n (x :: y :: rest) =
       ('(e, h') ← call base (λ l, InjectX h l n (y :: rest));
        Ok (e, h', Some coll))) ∧
  (∀ (coll : collection) x base, entries coll !! x = Some base →
     AggsInjectX h (Some coll) n [x] = Ok (None, h, Some coll)) ∧
  (∀ (coll : collection) x y rest base, entries coll !! x = Some base →
     AggsInject h (Some coll) n (x :: y :: rest) =
       ('(e, h') ← call base (λ l, Inject h l n (y :: rest));
        Ok (e, h', Some coll))).
Proof.
  split; [|split; [|split; [|split; [|split; [|split]]]]].
  7:{ intros coll x y rest base Hx. by rewrite AggsInject_deep, Hx. }
  - intros a p v Hlen Hsel Hnil. rewrite Inject_deep by done.
    rewrite Hsel. cbn. rewrite Hnil. reflexivity.
  - intros a p v Hne Hsel Hnil. destruct p as [|x rest]; [done|].
    rewrite InjectX_nonempty, Hsel. cbn. rewrite Hnil. reflexivity.
  - intros a p v Hne Hsel Hnil. destruct p as [|x rest]; [done|].
    rewrite InjectX_nonempty, Hsel. cbn. rewrite Hnil. reflexivity.
  - intros coll x y l t Hx Hl. rewrite AggsInject_deep, Hx. cbn [call].
    rewrite Inject_single, Hl. reflexivity.
  - intros coll x y rest base Hx. by rewrite AggsInjectX_deep, Hx.
  - intros coll x base Hx. rewrite AggsInjectX_single.
    destruct coll as [|m]; cbn [entries] in Hx;
      [by rewrite lookup_empty in Hx|].
    by rewrite Hx.
Qed.

Lemma presence_tests_witness :
  IsNilTree degenerate_root (Some n1) = Ok true ∧
  Inject degenerate_root n2 (Some n2) path_xy =
    Ok (Some ErrPathNotSelectable, degenerate_root) ∧
  AggsInject degenerate_root (Some (Made one_root)) (Some n2) path_xy =
    Ok (None,
        set_subs degenerate_root n1 (nilAggregationTree nilAgg)
                 (<["y"%string := Some n2]> ∅),
        Some (Made one_root)).
Proof.
  destruct (presence_tests degenerate_root (Some n2))
    as (Hdeep & _ & _ & Hroot & _).
  split; [vm_compute; reflexivity|]. split.
  - apply (Hdeep n2 path_xy nilAgg); [simpl; lia| |]; vm_compute; reflexivity.
  - apply Hroot; vm_compute; reflexivity.
Defined.

(** C2 fails as stated on the root collection, whose tests are plain key
    lookups.  With the degenerate node 1 under "x", [Inject(n2, "x", "y")]
    succeeds, where an absent "x" gives [ErrAggIsNotInjectable]; and
    [InjectX(n2, "x")] keeps the degenerate (or nil) entry, where an absent
    "x" is filled in. *)
Lemma presence_tests_counterexample :
  IsNilTree degenerate_root (Some n1) = Ok true ∧
  AggsInject degenerate_root (Some (Made one_root)) (Some n2) path_xy =
    Ok (None,
        set_subs degenerate_root n1 (nilAggregationTree nilAgg)
                 {[ "y"%string := Some n2 ]},
        Some (Made one_root)) ∧
  AggsInject degenerate_root (Some (Made ∅)) (Some n2) path_xy =
    Ok (Some ErrAggIsNotInjectable, degenerate_root, Some (Made ∅)) ∧
  AggsInjectX degenerate_root (Some (Made one_root)) (Some n2) path_x =
    Ok (None, degenerate_root, Some (Made one_root)) ∧
  AggsInjectX degenerate_root (Some (Made nil_root)) (Some n2) path_x =
    Ok (None, degenerate_root, Some (Made nil_root)) ∧
  AggsInjectX degenerate_root (Some (Made ∅)) (Some n2) path_x =
    Ok (None, degenerate_root, Some (Made {[ "x"%string := Some n2 ]})).
Proof. repeat split; vm_compute; reflexivity. Qed.

(** * Further properties of the tree adapter and the root collection *)

(** ** Pop and Select see the same node *)

(** [Pop] and [Select] walk the same way. *)
Lemma Pop_Select_agree h p : ∀ a,
  match Pop h a p with
  | Ok (v, _) => Select h a p = Ok v
  | Panic pn => Select h a p = Panic pn
  end.
Proof.
  induction p as [|x p IH]; intros a; [done|].
  cbn [Pop Select].
  destruct (h !! a) as [t|]; [|done].
  destruct (subAggregations t !! x) as [v|]; [|done].
  destruct p as [|y p]; [done|].
  destruct v as [l|]; [|done]. cbn [call]. apply IH.
Qed.

(** X1.  On the node adapter, [Pop] returns exactly the node that [Select]
    returns for the same path in the same store, and panics exactly when
    [Select] does, with the same panic. *)
Theorem Pop_returns_Select h p : ∀ a,
  match Pop h a p with
  | Ok (v, _) => Select h a p = Ok v
  | Panic pn => Select h a p = Panic pn
  end.
Proof. apply Pop_Select_agree. Qed.

(** X2.  The same on the root collection: [Pop] returns the node [Select]
    returns, and panics exactly when [Select] does. *)
Theorem AggsPop_returns_AggsSelect h (a : option collection) p :
  match AggsPop h a p with
  | Ok (v, _, _) => AggsSelect h a p = Ok v
  | Panic pn => AggsSelect h a p = Panic pn
  end.
Proof.
  destruct p as [|x [|y rest]]; [done| |].
  - destruct a as [c|]; [|done]. rewrite AggsPop_single, AggsSelect_single.
    by destruct (entries c !! x).
  - destruct a as [c|]; [|done].
    rewrite AggsPop_deep, AggsSelect_deep.
    destruct (entries c !! x) as [[l|]|]; try done. cbn [call].
    pose proof (Pop_Select_agree h (y :: rest) l) as Hl.
    destruct (Pop h l (y :: rest)) as [[v h']|pn]; exact Hl.
Qed.

(** ** What no operation changes *)

Lemma set_subs_dom h c tc (m' : gmap string Aggregation) :
  h !! c = Some tc → dom (set_subs h c tc m') = dom h.
Proof.
  intros Hc. unfold set_subs. rewrite dom_insert_L.
  apply elem_of_dom_2 in Hc. apply subseteq_union_1_L.
  by apply singleton_subseteq_l.
Qed.

Lemma set_subs_Export h c tc (m' : gmap string Aggregation) l :
  h !! c = Some tc → Export (set_subs h c tc m') l = Export h l.
Proof.
  intros Hc. unfold Export, set_subs. destruct (decide (c = l)) as [->|Hne].
  - by rewrite lookup_insert_eq, Hc.
  - by rewrite lookup_insert_ne.
Qed.

Lemma Inject_keeps h a n p e h' :
  Inject h a n p = Ok (e, h') →
  dom h' = dom h ∧ ∀ l, Export h' l = Export h l.
Proof.
  destruct e as [e|].
  - intros H. by rewrite (Inject_err _ _ _ _ _ _ H).
  - intros H. apply Inject_ok in H as (c & tc & _ & Hc & ->). split.
    + by apply set_subs_dom.
    + intros l. by apply set_subs_Export.
Qed.

(** X3.  Structural operations never create or destroy a node and never
    change what a node exports: after [Inject], [InjectX] or [Pop] on the
    node adapter, whatever they return, the store holds the same nodes and
    every node's [Export] is what it was. *)
Theorem structure_changes_keep_nodes h a p :
  (∀ n e h', Inject h a n p = Ok (e, h') →
             dom h' = dom h ∧ ∀ l, Export h' l = Export h l) ∧
  (∀ n e h', InjectX h a n p = Ok (e, h') →
             dom h' = dom h ∧ ∀ l, Export h' l = Export h l) ∧
  (∀ v h', Pop h a p = Ok (v, h') →
           dom h' = dom h ∧ ∀ l, Export h' l = Export h l).
Proof.
  split; [|split].
  - intros n e h'. apply Inject_keeps.
  - intros n e h'. destruct p as [|x rest]; [by intros [= _ <-]|].
    rewrite InjectX_nonempty.
    destruct (Select h a (x :: rest)) as [v|]; [|done]. cbn.
    destruct (IsNilTree h v) as [[|]|]; cbn; [| |done].
    + apply Inject_keeps.
    + by intros [= _ <-].
  - intros v h' H.
    apply Pop_inv in H as [(_ & _ & ->)|(c & tc & _ & Hc & _ & ->)]; [done|].
    split.
    + by apply set_subs_dom.
    + intros l. by apply set_subs_Export.
Qed.

Lemma structure_changes_keep_nodes_witness :
  Inject nested n1 (Some n3) path_ab = Ok (None, nested_injected) ∧
  dom nested_injected = dom nested ∧
  ∀ l, Export nested_injected l = Export nested l.
Proof.
  assert (Inject nested n1 (Some n3) path_ab = Ok (None, nested_injected))
    as H1 by (vm_compute; reflexivity).
  destruct (structure_changes_keep_nodes nested n1 path_ab) as (Hinj & _).
  exact (conj H1 (Hinj (Some n3) None nested_injected H1)).
Defined.

(** ** Errors *)

(** The errors of [Inject] and [InjectX] on a node, case by case. *)
Lemma node_error_cases h a n p e h' :
  Inject h a n p = Ok (Some e, h') ∨ InjectX h a n p = Ok (Some e, h') →
  h' = h ∧
  ((e = ErrNoPath ∧ p = []) ∨ (e = ErrPathNotSelectable ∧ 2 ≤ length p)).
Proof.
  assert (∀ h', Inject h a n p = Ok (Some e, h') →
      h' = h ∧
      ((e = ErrNoPath ∧ p = []) ∨ (e = ErrPathNotSelectable ∧ 2 ≤ length p)))
    as Hinj.
  { intros h1 H. split; [by apply (Inject_err h a n p e)|].
    destruct p as [|x [|y rest]].
    - left. revert H. simp Inject. by intros [= <- _].
    - revert H. rewrite Inject_single. by destruct (h !! a).
    - right. split; [|simpl; lia]. revert H.
      rewrite Inject_deep by (simpl; lia).
      destruct (Select h a (init (x :: y :: rest))) as [cursor|]; [|done].
      cbn. destruct (IsNilTree h cursor) as [[|]|]; cbn; try done.
      + by intros [= <- _].
      + destruct cursor as [c|]; [|done]. cbn. rewrite Inject_single.
        by destruct (h !! c). }
  intros [H|H]; [by apply Hinj|].
  destruct p as [|x rest].
  - injection H as <- <-. split; [done|]. by left.
  - rewrite InjectX_nonempty in H.
    destruct (Select h a (x :: rest)) as [v|]; [|done]. cbn in H.
    destruct (IsNilTree h v) as [[|]|]; cbn in H; try done.
    by apply Hinj.
Qed.

(** X4.  On the node adapter an error is returned with the store untouched,
    and there are only two: [ErrNoPath], exactly for the empty path, and
    [ErrPathNotSelectable], only for paths of two names or more.
    [ErrAggIsNotInjectable] is never returned by a node. *)
Theorem node_errors h a n p e h' :
  Inject h a n p = Ok (Some e, h') ∨ InjectX h a n p = Ok (Some e, h') →
  h' = h ∧
  ((e = ErrNoPath ∧ p = []) ∨ (e = ErrPathNotSelectable ∧ 2 ≤ length p)).
Proof. apply node_error_cases. Qed.

Lemma node_errors_witness :
  InjectX two_nodes n1 (Some n2) path_ab =
    Ok (Some ErrPathNotSelectable, two_nodes) ∧
  two_nodes = two_nodes ∧
  ((ErrPathNotSelectable = ErrNoPath ∧ path_ab = []) ∨
   (ErrPathNotSelectable = ErrPathNotSelectable ∧ 2 ≤ length path_ab)).
Proof.
  assert (InjectX two_nodes n1 (Some n2) path_ab =
            Ok (Some ErrPathNotSelectable, two_nodes)) as H1
    by (vm_compute; reflexivity).
  exact (conj H1
    (node_errors two_nodes n1 (Some n2) path_ab ErrPathNotSelectable
       two_nodes (or_intror H1))).
Defined.

(** X5.  On the root collection an error is returned with the store and the
    collection untouched; [ErrNoPath] is returned exactly for the empty path
    on a present collection, and [ErrAggIsNotInjectable] only for an absent
    collection or for a longer path whose first name is not a key. *)
Theorem collection_errors h (a : option collection) n p e h' a' :
  AggsInject h a n p = Ok (Some e, h', a') ∨
  AggsInjectX h a n p = Ok (Some e, h', a') →
  h' = h ∧ a' = a ∧
  (e = ErrNoPath → p = [] ∧ a ≠ None) ∧
  (e = ErrAggIsNotInjectable →
   a = None ∨
   ∃ c, a = Some c ∧ 2 ≤ length p ∧ entries c !! hd EmptyString p = None).
Proof.
  destruct a as [c|].
  2:{ intros [[= <- <- <-]|[= <- <- <-]]; repeat split; try done;
        intros _; by left. }
  destruct p as [|x [|y rest]].
  - intros [[= <- <- <-]|[= <- <- <-]]; repeat split; done.
  - rewrite AggsInject_single, AggsInjectX_single.
    destruct c as [|m]; [by intros [H|H]|].
    intros [H|H]; [done|]. by destruct (m !! x).
  - rewrite AggsInject_deep, AggsInjectX_deep.
    destruct (entries c !! x) as [[l|]|] eqn:Hx; cbn [call].
    + intros [H|H].
      * destruct (Inject h l n (y :: rest)) as [[e1 h1]|] eqn:Hl; [|done].
        cbn in H. injection H as -> <- <-.
        destruct (node_error_cases h l n (y :: rest) e h1 (or_introl Hl))
          as [-> [[-> [=]]|[-> _]]].
        repeat split; done.
      * destruct (InjectX h l n (y :: rest)) as [[e1 h1]|] eqn:Hl; [|done].
        cbn in H. injection H as -> <- <-.
        destruct (node_error_cases h l n (y :: rest) e h1 (or_intror Hl))
          as [-> [[-> [=]]|[-> _]]].
        repeat split; done.
    + intros [H|H]; done.
    + intros [[= <- <- <-]|[= <- <- <-]]; repeat split; try done;
        intros _; right; exists c; (split; [done|]); (split; [simpl; lia|done]).
Qed.

Lemma collection_errors_witness :
  AggsInjectX two_nodes (Some (Made one_root)) (Some n2) path_ab =
    Ok (Some ErrAggIsNotInjectable, two_nodes, Some (Made one_root)) ∧
  (ErrAggIsNotInjectable = ErrAggIsNotInjectable →
   Some (Made one_root) = None ∨
   ∃ c, Some (Made one_root) = Some c ∧ 2 ≤ length path_ab ∧
        entries c !! hd EmptyString path_ab = None).
Proof.
  assert (AggsInjectX two_nodes (Some (Made one_root)) (Some n2) path_ab =
            Ok (Some ErrAggIsNotInjectable, two_nodes, Some (Made one_root))) as H1
    by (vm_compute; reflexivity).
  destruct (collection_errors two_nodes (Some (Made one_root)) (Some n2) path_ab
              ErrAggIsNotInjectable two_nodes (Some (Made one_root)) (or_intror H1))
    as (_ & _ & _ & Hkey).
  exact (conj H1 Hkey).
Defined.

(** ** Writing twice, writing then removing, removing twice *)

(** What a successful [Inject] tells about the store it ran in. *)
Lemma Inject_ok_root h a n p h' :
  Inject h a n p = Ok (None, h') →
  p ≠ [] ∧
  ∃ c tc, parent h a p = Ok (Some c) ∧ h !! c = Some tc ∧
          (2 ≤ length p → root tc ≠ nilAgg) ∧
          h' = set_subs h c tc (<[final p := n]> (subAggregations tc)).
Proof.
  destruct p as [|x [|y rest]].
  - by simp Inject.
  - rewrite Inject_single. destruct (h !! a) as [t|] eqn:Ha; [|done].
    intros [= <-]. split; [done|]. exists a, t. rewrite parent_single.
    repeat split; try done. simpl. lia.
  - rewrite Inject_deep by (simpl; lia). rewrite parent_deep by (simpl; lia).
    destruct (Select h a (init (x :: y :: rest))) as [cursor|] eqn:Hsel; [|done].
    cbn. destruct (IsNilTree h cursor) as [[|]|] eqn:Hnil; cbn; try done.
    apply IsNilTree_false in Hnil as (c & t & -> & Hc & Hroot).
    cbn. rewrite Inject_single, Hc. intros [= <-].
    split; [done|]. by exists c, t.
Qed.

Lemma tree_eta (t : tree) : mkTree (root t) (subAggregations t) = t.
Proof. by destruct t. Qed.

(** After a successful [Inject] whose parent is not revisited, the path
    reads back the node, and popping it leaves nothing behind. *)
Lemma Inject_Select_Pop h a n p h1 :
  Inject h a n p = Ok (None, h1) →
  parent_revisited h a p = false →
  Select h1 a p = Ok n ∧
  ∃ h2, Pop h1 a p = Ok (n, h2) ∧ Select h2 a p = Ok nilAgg.
Proof.
  intros Hinj Hrev.
  apply Inject_ok_root in Hinj as (Hne & c & tc & Hpar & Hc & _ & ->).
  pose proof (parent_fresh _ _ _ _ Hne Hrev Hpar) as Hfresh.
  split; [|eexists; split].
  - rewrite (Select_after_set h a c p tc _ Hne Hpar Hfresh Hc).
    by rewrite lookup_insert_eq.
  - rewrite (Pop_after_set h a c p tc _ Hne Hpar Hfresh Hc).
    rewrite lookup_insert_eq. reflexivity.
  - rewrite (Select_after_set h a c p tc _ Hne Hpar Hfresh Hc).
    by rewrite lookup_delete_eq.
Qed.

(** X6.  Last writer wins and the earlier write leaves no trace: after a
    successful [Inject(n, p)] (whose parent is not revisited on the way
    down), [Inject(n2, p)] gives exactly the outcome and the store that
    [Inject(n2, p)] alone would have given. *)
Theorem Inject_overwrites h a n n2 p h1 :
  Inject h a n p = Ok (None, h1) →
  parent_revisited h a p = false →
  Inject h1 a n2 p = Inject h a n2 p.
Proof.
  intros Hinj Hrev.
  apply Inject_ok_root in Hinj as (Hne & c & tc & Hpar & Hc & Hroot & ->).
  pose proof (parent_fresh _ _ _ _ Hne Hrev Hpar) as Hfresh.
  rewrite (Inject_returns h a n2 p c tc Hne Hpar Hc Hroot).
  rewrite (Inject_returns _ a n2 p c
             (mkTree (root tc) (<[final p := n]> (subAggregations tc))) Hne).
  - unfold set_subs. cbn. by rewrite insert_insert_eq, insert_insert_eq.
  - by apply parent_after_set.
  - unfold set_subs. by rewrite lookup_insert_eq.
  - exact Hroot.
Qed.

Lemma Inject_overwrites_witness :
  Inject nested n1 (Some n3) path_ab = Ok (None, nested_injected) ∧
  parent_revisited nested n1 path_ab = false ∧
  Inject nested_injected n1 (Some n1) path_ab =
    Inject nested n1 (Some n1) path_ab.
Proof.
  assert (Inject nested n1 (Some n3) path_ab = Ok (None, nested_injected))
    as H1 by (vm_compute; reflexivity).
  assert (parent_revisited nested n1 path_ab = false) as H2
    by (vm_compute; reflexivity).
  exact (conj H1 (conj H2
    (Inject_overwrites nested n1 (Some n3) (Some n1) path_ab nested_injected
       H1 H2))).
Defined.

(** A path that does not resolve although its parent exists misses its
    last name in the parent's child map. *)
Lemma unresolved_last h a p c tc :
  p ≠ [] → parent h a p = Ok (Some c) → h !! c = Some tc →
  unresolved h a p = true → subAggregations tc !! final p = None.
Proof.
  intros Hne Hpar Hc Hun.
  pose proof (Pop_unresolved h p a Hun) as Hpop.
  rewrite (Pop_via_parent _ _ _ c Hne Hpar), Pop_single, Hc in Hpop.
  destruct (subAggregations tc !! final p) as [v|] eqn:Hv; [|done].
  injection Hpop as -> Hh. exfalso.
  assert (set_subs h c tc (delete (final p) (subAggregations tc)) !! c
          = Some tc) as Hlk by (by rewrite Hh).
  unfold set_subs in Hlk. rewrite lookup_insert_eq in Hlk.
  injection Hlk as Hlk. rewrite <- Hlk in Hv. cbn in Hv.
  by rewrite lookup_delete_eq in Hv.
Qed.

(** X7.  Round trip: when nothing was stored at [p] (a name on it was
    missing), a successful [Inject(n, p)] followed by [Pop(p)] returns [n]
    and puts the store back exactly as it was before the [Inject]. *)
Theorem Inject_Pop_restores h a n p h1 :
  unresolved h a p = true →
  Inject h a n p = Ok (None, h1) →
  parent_revisited h a p = false →
  Pop h1 a p = Ok (n, h).
Proof.
  intros Hun Hinj Hrev.
  apply Inject_ok_root in Hinj as (Hne & c & tc & Hpar & Hc & _ & ->).
  pose proof (parent_fresh _ _ _ _ Hne Hrev Hpar) as Hfresh.
  pose proof (unresolved_last h a p c tc Hne Hpar Hc Hun) as Hlast.
  rewrite (Pop_after_set h a c p tc _ Hne Hpar Hfresh Hc).
  rewrite lookup_insert_eq. unfold set_subs.
  rewrite delete_insert_id by done.
  rewrite tree_eta. by rewrite insert_id.
Qed.

Lemma Inject_Pop_restores_witness :
  unresolved nested n1 path_ab = true ∧
  Inject nested n1 (Some n3) path_ab = Ok (None, nested_injected) ∧
  parent_revisited nested n1 path_ab = false ∧
  Pop nested_injected n1 path_ab = Ok (Some n3, nested).
Proof.
  assert (unresolved nested n1 path_ab = true) as H0
    by (vm_compute; reflexivity).
  assert (Inject nested n1 (Some n3) path_ab = Ok (None, nested_injected))
    as H1 by (vm_compute; reflexivity).
  assert (parent_revisited nested n1 path_ab = false) as H2
    by (vm_compute; reflexivity).
  exact (conj H0 (conj H1 (conj H2
    (Inject_Pop_restores nested n1 (Some n3) path_ab nested_injected
       H0 H1 H2)))).
Defined.

(** X8.  Removing twice: after [Pop(p)] has returned (with its parent not
    revisited on the way down), [Select(p)] returns nil and a second
    [Pop(p)] returns nil and changes nothing. *)
Theorem Pop_twice h a p v h1 :
  Pop h a p = Ok (v, h1) →
  parent_revisited h a p = false →
  Select h1 a p = Ok nilAgg ∧ Pop h1 a p = Ok (nilAgg, h1).
Proof.
  intros Hpop Hrev.
  destruct (decide (p = [])) as [->|Hne].
  { injection Hpop as <- <-. done. }
  apply Pop_inv in Hpop as [(Hun & _ & ->)|(c & tc & Hpar & Hc & Hv & ->)].
  - split; [by apply unresolved_Select|by apply Pop_unresolved].
  - pose proof (parent_fresh _ _ _ _ Hne Hrev Hpar) as Hfresh. split.
    + rewrite (Select_after_set h a c p tc _ Hne Hpar Hfresh Hc).
      by rewrite lookup_delete_eq.
    + rewrite (Pop_after_set h a c p tc _ Hne Hpar Hfresh Hc).
      by rewrite lookup_delete_eq.
Qed.

Lemma Pop_twice_witness :
  Pop nested_injected n1 path_ab = Ok (Some n3, nested) ∧
  parent_revisited nested_injected n1 path_ab = false ∧
  Select nested n1 path_ab = Ok nilAgg ∧
  Pop nested n1 path_ab = Ok (nilAgg, nested).
Proof.
  assert (Pop nested_injected n1 path_ab = Ok (Some n3, nested)) as H1
    by (vm_compute; reflexivity).
  assert (parent_revisited nested_injected n1 path_ab = false) as H2
    by (vm_compute; reflexivity).
  exact (conj H1 (conj H2
    (Pop_twice nested_injected n1 path_ab (Some n3) nested H1 H2))).
Defined.

(** X9.  A successful [Inject] changes one entry of one child map: the
    entry under the last name in the path's parent now holds the node, and
    every other entry of every node reads as before. *)
Theorem Inject_changes_one_entry h a n p h' :
  Inject h a n p = Ok (None, h') →
  ∃ c, parent h a p = Ok (Some c) ∧
       Select h' c [final p] = Ok n ∧
       ∀ l k, l ≠ c ∨ k ≠ final p → Select h' l [k] = Select h l [k].
Proof.
  intros Hinj. apply Inject_ok in Hinj as (c & tc & Hpar & Hc & ->).
  exists c. split; [done|]. unfold set_subs. split.
  - rewrite Select_single, lookup_insert_eq. cbn. by rewrite lookup_insert_eq.
  - intros l k Hlk. rewrite !Select_single.
    destruct (decide (c = l)) as [<-|Hne].
    + rewrite lookup_insert_eq, Hc. cbn.
      destruct Hlk as [Hl|Hk]; [done|]. by rewrite lookup_insert_ne.
    + by rewrite lookup_insert_ne.
Qed.

Lemma Inject_changes_one_entry_witness :
  Inject nested n1 (Some n3) path_ab = Ok (None, nested_injected) ∧
  ∃ c, parent nested n1 path_ab = Ok (Some c) ∧
       Select nested_injected c [final path_ab] = Ok (Some n3) ∧
       ∀ l k, l ≠ c ∨ k ≠ final path_ab →
              Select nested_injected l [k] = Select nested l [k].
Proof.
  assert (Inject nested n1 (Some n3) path_ab = Ok (None, nested_injected))
    as H1 by (vm_compute; reflexivity).
  exact (conj H1
    (Inject_changes_one_entry nested n1 (Some n3) path_ab nested_injected H1)).
Defined.

(** ** InjectX as "ensure present" *)

(** X10.  After a successful [InjectX(n, p)] with a node [n] that is not a
    nil tree (and with the parent not revisited on the way down), the path
    selects a present node, whether the call inserted [n] or found one. *)
Theorem InjectX_ensures_present h a n p h1 :
  InjectX h a n p = Ok (None, h1) →
  IsNilTree h n = Ok false →
  parent_revisited h a p = false →
  ∃ v, Select h1 a p = Ok v ∧ IsNilTree h1 v = Ok false.
Proof.
  intros Hx Hn Hrev. destruct p as [|x rest]; [done|].
  rewrite InjectX_nonempty in Hx.
  destruct (Select h a (x :: rest)) as [v0|] eqn:Hsel; [|done]. cbn in Hx.
  destruct (IsNilTree h v0) as [[|]|] eqn:Hnil; cbn in Hx; [| |done].
  - exists n. destruct (Inject_Select_Pop h a n (x :: rest) h1 Hx Hrev)
      as [Hafter _].
    split; [done|].
    apply Inject_ok in Hx as (c & tc & _ & Hc & ->).
    by rewrite IsNilTree_set_subs.
  - injection Hx as <-. by exists v0.
Qed.

Lemma InjectX_ensures_present_witness :
  InjectX nested n1 (Some n3) path_ab = Ok (None, nested_injected) ∧
  IsNilTree nested (Some n3) = Ok false ∧
  parent_revisited nested n1 path_ab = false ∧
  ∃ v, Select nested_injected n1 path_ab = Ok v ∧
       IsNilTree nested_injected v = Ok false.
Proof.
  assert (InjectX nested n1 (Some n3) path_ab = Ok (None, nested_injected))
    as H1 by (vm_compute; reflexivity).
  assert (IsNilTree nested (Some n3) = Ok false) as H2
    by (vm_compute; reflexivity).
  assert (parent_revisited nested n1 path_ab = false) as H3
    by (vm_compute; reflexivity).
  exact (conj H1 (conj H2 (conj H3
    (InjectX_ensures_present nested n1 (Some n3) path_ab nested_injected
       H1 H2 H3)))).
Defined.

(** ** The root collection round trip *)



(** ** Paths compose *)

Lemma Select_app h p : ∀ a c q,
  p ≠ [] → q ≠ [] → Select h a p = Ok (Some c) →
  Select h a (p ++ q) = Select h c q.
Proof.
  induction p as [|x p IH]; intros a c q Hp Hq Hsel; [done|].
  cbn [Select app] in *.
  destruct (h !! a) as [t|]; [|done].
  destruct (subAggregations t !! x) as [v|]; [|done].
  destruct p as [|y p].
  - injection Hsel as ->. destruct q; [done|]. reflexivity.
  - destruct v as [l|]; [|done]. cbn [call] in *.
    cbn [app]. cbn [call]. by apply IH.
Qed.

Lemma Pop_app h p : ∀ a c q,
  p ≠ [] → q ≠ [] → Select h a p = Ok (Some c) →
  Pop h a (p ++ q) = Pop h c q.
Proof.
  induction p as [|x p IH]; intros a c q Hp Hq Hsel; [done|].
  cbn [Select Pop app] in *.
  destruct (h !! a) as [t|]; [|done].
  destruct (subAggregations t !! x) as [v|]; [|done].
  destruct p as [|y p].
  - injection Hsel as ->. destruct q; [done|]. reflexivity.
  - destruct v as [l|]; [|done]. cbn [call] in *.
    cbn [app]. cbn [call]. by apply IH.
Qed.

Lemma final_app (p q : list string) : q ≠ [] → final (p ++ q) = final q.
Proof.
  intros Hq. rewrite (init_final q Hq) at 1.
  by rewrite app_assoc, final_snoc.
Qed.

Lemma init_app (p q : list string) : q ≠ [] → init (p ++ q) = p ++ init q.
Proof. intros Hq. by apply removelast_app. Qed.

(** X12.  Addressing a node by a path is addressing it step by step: when
    [Select(p)] returns a node [c], then for every non-empty [q],
    [Select(p ++ q)] is [c.Select(q)] and [Pop(p ++ q)] is [c.Pop(q)]; and
    when [c] is not a nil tree, [Inject(n, p ++ q)] is [c.Inject(n, q)]. *)
Theorem path_split h a c p q :
  p ≠ [] → q ≠ [] → Select h a p = Ok (Some c) →
  Select h a (p ++ q) = Select h c q ∧
  Pop h a (p ++ q) = Pop h c q ∧
  (IsNilTree h (Some c) = Ok false →
   ∀ n, Inject h a n (p ++ q) = Inject h c n q).
Proof.
  intros Hp Hq Hsel. split; [by apply Select_app|].
  split; [by apply Pop_app|]. intros Hnil n.
  assert (2 ≤ length (p ++ q)) as Hlen.
  { rewrite length_app. destruct p; [done|]. destruct q; [done|]. simpl. lia. }
  rewrite Inject_deep by done.
  rewrite init_app, final_app by done.
  destruct (init q) as [|z q'] eqn:Hiq.
  - rewrite app_nil_r, Hsel. cbn -[IsNilTree]. rewrite Hnil. cbn.
    rewrite (init_final q Hq) at 2. by rewrite Hiq.
  - rewrite (Select_app h p a c (z :: q')) by done.
    rewrite <- Hiq. rewrite Inject_deep; [done|].
    destruct q as [|k1 [|k2 q'']]; [done|done|simpl; lia].
Qed.

Lemma path_split_witness :
  path_a ≠ [] ∧ path_y ≠ [] ∧ Select nested n1 path_a = Ok (Some n2) ∧
  IsNilTree nested (Some n2) = Ok false ∧
  Inject nested n1 (Some n3) (path_a ++ path_y) =
    Inject nested n2 (Some n3) path_y.
Proof.
  assert (path_a ≠ []) as H1 by discriminate.
  assert (path_y ≠ []) as H2 by discriminate.
  assert (Select nested n1 path_a = Ok (Some n2)) as H3
    by (vm_compute; reflexivity).
  assert (IsNilTree nested (Some n2) = Ok false) as H4
    by (vm_compute; reflexivity).
  destruct (path_split nested n1 n2 path_a path_y H1 H2 H3) as (_ & _ & Hinj).
  exact (conj H1 (conj H2 (conj H3 (conj H4 (Hinj H4 (Some n3)))))).
Defined.

(** ** The collection mirrors a node *)



(** ** Stores without loops *)

(** X13.  In a store without loops every successful [Inject(n, p)] on the
    node adapter can be read back: [Select(p)] returns [n], [Pop(p)] returns
    [n], and after the [Pop] the path selects nothing. *)
Theorem acyclic_Inject_round_trip h a n p h1 :
  acyclic h →
  Inject h a n p = Ok (None, h1) →
  Select h1 a p = Ok n ∧
  ∃ h2, Pop h1 a p = Ok (n, h2) ∧ Select h2 a p = Ok nilAgg.
Proof.
  intros Hacyc Hinj. apply (Inject_Select_Pop h a n p h1 Hinj).
  by apply acyclic_not_revisited.
Qed.

Lemma childless_acyclic h :
  map_Forall (λ _ t, subAggregations t = ∅) h → acyclic h.
Proof.
  intros Hall. exists (λ _, 0). intros l k c Hch. exfalso.
  unfold child in Hch. destruct (h !! l) as [t|] eqn:Hl; [|done].
  cbn in Hch. rewrite (Hall l t Hl), lookup_empty in Hch. done.
Qed.

Lemma two_nodes_acyclic : acyclic two_nodes.
Proof.
  apply childless_acyclic. unfold two_nodes.
  apply map_Forall_insert_2; [done|].
  apply map_Forall_insert_2; [done|]. apply map_Forall_empty.
Defined.

Lemma acyclic_Inject_round_trip_witness :
  acyclic two_nodes ∧
  Inject two_nodes n1 (Some n2) path_x =
    Ok (None, set_subs two_nodes n1 (nilAggregationTree (Some n1))
                       {[ "x"%string := Some n2 ]}) ∧
  Select (set_subs two_nodes n1 (nilAggregationTree (Some n1))
                   {[ "x"%string := Some n2 ]}) n1 path_x = Ok (Some n2).
Proof.
  assert (Inject two_nodes n1 (Some n2) path_x =
    Ok (None, set_subs two_nodes n1 (nilAggregationTree (Some n1))
                       {[ "x"%string := Some n2 ]})) as H1
    by (vm_compute; reflexivity).
  destruct (acyclic_Inject_round_trip two_nodes n1 (Some n2) path_x _
              two_nodes_acyclic H1) as [Hsel _].
  exact (conj two_nodes_acyclic (conj H1 Hsel)).
Defined.

Lemma child_set_subs h c tc (m' : gmap string Aggregation) l k :
  h !! c = Some tc →
  child (set_subs h c tc m') l k =
  if decide (l = c) then v ← m' !! k; v else child h l k.
Proof.
  intros Hc. unfold child, set_subs. destruct (decide (l = c)) as [->|Hne].
  - by rewrite lookup_insert_eq.
  - by rewrite lookup_insert_ne.
Qed.

(** X15.  Loops do not arise from removals or from attaching leaves: [Pop]
    keeps a store without loops free of loops, and so does a successful
    [Inject] of nil or of a node that has no children and is not the very
    node receiving it. *)
Theorem acyclic_kept h a p :
  acyclic h →
  (∀ v h', Pop h a p = Ok (v, h') → acyclic h') ∧
  (∀ n h', Inject h a n p = Ok (None, h') →
           (∀ l, n = Some l →
                 (∀ k, child h l k = None) ∧ parent h a p ≠ Ok (Some l)) →
           acyclic h').
Proof.
  intros [depth Hd]. split.
  - intros v h' Hpop.
    apply Pop_inv in Hpop as [(_ & _ & ->)|(c & tc & _ & Hc & _ & ->)];
      [by exists depth|].
    exists depth. intros l k c' Hch. rewrite child_set_subs in Hch by done.
    destruct (decide (l = c)) as [->|Hne]; [|by apply (Hd l k)].
    apply (Hd c k). unfold child. rewrite Hc. cbn.
    destruct (decide (k = final p)) as [->|Hk].
    + by rewrite lookup_delete_eq in Hch.
    + by rewrite lookup_delete_ne in Hch.
  - intros n h' Hinj Hleaf.
    apply Inject_ok in Hinj as (c & tc & Hpar & Hc & ->).
    destruct n as [ln|].
    + destruct (Hleaf ln eq_refl) as [Hnochild Hnotpar].
      assert (ln ≠ c) as Hlc by (intros ->; by apply Hnotpar).
      exists (λ x, if decide (x = ln) then S (depth c `max` depth ln)
                   else depth x).
      intros l k c' Hch. rewrite child_set_subs in Hch by done. cbn beta.
      destruct (decide (l = ln)) as [->|Hl].
      { rewrite decide_False in Hch by done. by rewrite Hnochild in Hch. }
      destruct (decide (l = c)) as [->|Hne].
      * destruct (decide (k = final p)) as [->|Hk].
        -- rewrite lookup_insert_eq in Hch. cbn in Hch. injection Hch as <-.
           rewrite decide_True by done. lia.
        -- rewrite lookup_insert_ne in Hch by done.
           assert (child h c k = Some c') as Hold
             by (unfold child; by rewrite Hc).
           apply Hd in Hold. destruct (decide (c' = ln)); lia.
      * apply Hd in Hch. destruct (decide (c' = ln)) as [->|?]; lia.
    + exists depth. intros l k c' Hch. rewrite child_set_subs in Hch by done.
      destruct (decide (l = c)) as [->|Hne]; [|by apply (Hd l k)].
      apply (Hd c k). unfold child. rewrite Hc. cbn.
      destruct (decide (k = final p)) as [->|Hk].
      * by rewrite lookup_insert_eq in Hch.
      * by rewrite lookup_insert_ne in Hch.
Qed.

Lemma acyclic_kept_witness :
  acyclic two_nodes ∧
  Inject two_nodes n1 (Some n2) path_x =
    Ok (None, set_subs two_nodes n1 (nilAggregationTree (Some n1))
                       {[ "x"%string := Some n2 ]}) ∧
  acyclic (set_subs two_nodes n1 (nilAggregationTree (Some n1))
                    {[ "x"%string := Some n2 ]}).
Proof.
  assert (Inject two_nodes n1 (Some n2) path_x =
    Ok (None, set_subs two_nodes n1 (nilAggregationTree (Some n1))
                       {[ "x"%string := Some n2 ]})) as H1
    by (vm_compute; reflexivity).
  destruct (acyclic_kept two_nodes n1 path_x two_nodes_acyclic) as [_ Hinj].
  refine (conj two_nodes_acyclic (conj H1 (Hinj (Some n2) _ H1 _))).
  intros l [= <-]. split.
  - intros k. vm_compute. reflexivity.
  - vm_compute. discriminate.
Defined.

(** * Rendering: the Source methods *)


Lemma size_pos_non_empty {A} (m : gmap string A) : 0 < size m ↔ m ≠ ∅.
Proof. rewrite <- map_size_non_empty_iff. lia. Qed.





Section values_source.
Local Open Scope string_scope.



End values_source.

Section source_theorems.
Local Open Scope string_scope.








End source_theorems.

Section sum_bucket.
Local Open Scope string_scope.

(** X20.  [SumBucketAggregation.Source] always returns a document, never an
    error.  Under "sum_bucket" it has "format" and "gap_policy" only when
    they are not empty and "buckets_path" as nothing for no path, as a plain
    string for exactly one path and as the list of paths for more; the meta
    data is under "meta" exactly when not empty; there is nothing else. *)
Theorem SumBucketAggregation_Source_spec (a : SumBucketAggregation.t) :
  ∃ params top : gmap string doc,
    SumBucketAggregation.Source a = Returned (DMap top) ∧
    top !! "sum_bucket" = Some (DMap params) ∧
    top !! "meta" =
      (if decide (SumBucketAggregation.meta a = ∅) then None
       else Some (DMap (SumBucketAggregation.meta a))) ∧
    (∀ k, k ≠ "sum_bucket" → k ≠ "meta" → top !! k = None) ∧
    params !! "format" =
      (if decide (SumBucketAggregation.format a = "") then None
       else Some (DString (SumBucketAggregation.format a))) ∧
    params !! "gap_policy" =
      (if decide (SumBucketAggregation.gapPolicy a = "") then None
       else Some (DString (SumBucketAggregation.gapPolicy a))) ∧
    params !! "buckets_path" =
      match SumBucketAggregation.bucketsPaths a with
      | [] => None
      | [path] => Some (DString path)
      | paths => Some (DStrings paths)
      end ∧
    (∀ k, k ≠ "format" → k ≠ "gap_policy" → k ≠ "buckets_path" →
          params !! k = None).
Proof.
  unfold SumBucketAggregation.Source. eexists _, _.
  split; [reflexivity|].
  split; [case_decide; by simplify_map_eq|].
  split.
  { destruct (decide (0 < size (SumBucketAggregation.meta a))) as [Hm|Hm].
    - apply size_pos_non_empty in Hm.
      rewrite (decide_False (P := SumBucketAggregation.meta a = ∅)) by done.
      by simplify_map_eq.
    - assert (SumBucketAggregation.meta a = ∅) as ->
        by (apply map_size_empty_iff; lia).
      rewrite (decide_True (P := (∅ : gmap string doc) = ∅)) by done.
      by simplify_map_eq. }
  split; [intros; case_decide; by simplify_map_eq|].
  destruct (SumBucketAggregation.bucketsPaths a) as [|p1 [|p2 ps]];
    repeat case_decide; repeat split; intros; by simplify_map_eq.
Qed.

(** The builder of the sum-bucket aggregation accumulates bucket paths
    over calls instead of replacing them, so the rendering switches from a
    plain string to a list with the second path, however the paths were
    passed; the gap-policy setters replace each other, the last one wins. *)
Theorem SumBucketAggregation_builders p q :
  SumBucketAggregation.Source
    (SumBucketAggregation.BucketsPath [p] SumBucketAggregation.New) =
    Returned (DMap {[ "sum_bucket" :=
                        DMap {[ "buckets_path" := DString p ]} ]}) ∧
  SumBucketAggregation.Source
    (SumBucketAggregation.BucketsPath [q]
       (SumBucketAggregation.BucketsPath [p] SumBucketAggregation.New)) =
    Returned (DMap {[ "sum_bucket" :=
                        DMap {[ "buckets_path" := DStrings [p; q] ]} ]}) ∧
  (∀ a ps qs,
     SumBucketAggregation.BucketsPath qs (SumBucketAggregation.BucketsPath ps a)
     = SumBucketAggregation.BucketsPath (ps ++ qs) a) ∧
  (∀ a, SumBucketAggregation.GapSkip (SumBucketAggregation.GapInsertZeros a)
        = SumBucketAggregation.GapPolicy "skip" a ∧
        SumBucketAggregation.GapInsertZeros (SumBucketAggregation.GapSkip a)
        = SumBucketAggregation.GapPolicy "insert_zeros" a).
Proof.
  split; [reflexivity|]. split; [reflexivity|]. split.
  - intros a ps qs. unfold SumBucketAggregation.BucketsPath. cbn.
    by rewrite app_assoc.
  - intros a. split; reflexivity.
Qed.
End sum_bucket.

(** * Builders and constructors on the store *)

(** X21.  Attaching a sub-aggregation with the builder method
    [SubAggregation(name, sub)] is [Inject(sub, name)]: afterwards
    [Select(name)] returns [sub], and when [sub] is not a nil tree,
    [InjectX(n, name)] leaves it in place. *)
Theorem SubAggregation_is_Inject h a name sub :
  SubAggregation h a name sub =
    ('(_, h') ← Inject h a sub [name]; Ok (a, h')) ∧
  (∀ a' h', SubAggregation h a name sub = Ok (a', h') →
     a' = a ∧ Select h' a [name] = Ok sub ∧
     (IsNilTree h sub = Ok false →
      ∀ n, InjectX h' a n [name] = Ok (None, h'))).
Proof.
  unfold SubAggregation. rewrite Inject_single.
  destruct (h !! a) as [t|] eqn:Ha; [|done]. split; [done|].
  intros a' h' [= <- <-]. split; [done|].
  assert (Select (set_subs h a t (<[name := sub]> (subAggregations t)))
                 a [name] = Ok sub) as Hsel.
  { rewrite Select_single. unfold set_subs. rewrite lookup_insert_eq. cbn.
    by rewrite lookup_insert_eq. }
  split; [exact Hsel|]. intros Hnil n.
  fold (set_subs h a t (<[name := sub]> (subAggregations t))).
  rewrite InjectX_nonempty, Hsel. cbn -[IsNilTree].
  rewrite (IsNilTree_set_subs h a t _ sub Ha), Hnil. reflexivity.
Qed.

Lemma SubAggregation_is_Inject_witness :
  SubAggregation two_nodes n1 "x"%string (Some n2) =
    Ok (n1, set_subs two_nodes n1 (nilAggregationTree (Some n1))
                     {[ "x"%string := Some n2 ]}) ∧
  Select (set_subs two_nodes n1 (nilAggregationTree (Some n1))
                   {[ "x"%string := Some n2 ]}) n1 path_x = Ok (Some n2).
Proof.
  assert (SubAggregation two_nodes n1 "x"%string (Some n2) =
    Ok (n1, set_subs two_nodes n1 (nilAggregationTree (Some n1))
                     {[ "x"%string := Some n2 ]})) as H1
    by (vm_compute; reflexivity).
  destruct (SubAggregation_is_Inject two_nodes n1 "x"%string (Some n2))
    as [_ Hafter].
  destruct (Hafter _ _ H1) as (_ & Hsel & _).
  exact (conj H1 Hsel).
Defined.

(** X22.  What a constructor of a tree-embedding aggregation
    ([NewFilterAggregation], [NewDiversifiedSamplerAggregation]) hands out:
    a new node, distinct from every node of the store, all of which stay as
    they were; it exports itself, is not a nil tree, has no children, so
    every [Select] and [Pop] on it returns nil; it brings no loop into the
    store; and a node injected under one name is selected and popped again,
    the pop giving back the node as it came from the constructor. *)
Theorem newAggregationTree_spec h a h' :
  newAggregationTree h = (a, h') →
  (a ∉ dom h) ∧
  (∀ l, l ≠ a → h' !! l = h !! l) ∧
  Export h' a = Ok (Some a) ∧
  IsNilTree h' (Some a) = Ok false ∧
  GetAllSubs h' a = Ok ∅ ∧
  (∀ p, Select h' a p = Ok nilAgg ∧ Pop h' a p = Ok (nilAgg, h')) ∧
  (acyclic h → acyclic h') ∧
  (∀ n k, ∃ h1, Inject h' a n [k] = Ok (None, h1) ∧
                Select h1 a [k] = Ok n ∧
                Pop h1 a [k] = Ok (n, h')).
Proof.
  unfold newAggregationTree. intros [= <- <-].
  set (a := fresh (dom h)).
  assert (a ∉ dom h) as Hfresh by apply is_fresh.
  assert ((<[a := nilAggregationTree (Some a)]> h) !! a
          = Some (nilAggregationTree (Some a))) as Ha
    by apply lookup_insert_eq.
  split; [exact Hfresh|].
  split; [intros l Hl; by apply lookup_insert_ne|].
  split; [unfold Export; by rewrite Ha|].
  split; [unfold IsNilTree, Export; by rewrite Ha|].
  split; [unfold GetAllSubs; by rewrite Ha|].
  split; [|split].
  - intros [|x rest]; [done|]. cbn [Select Pop]. rewrite Ha. cbn.
    by rewrite lookup_empty.
  - intros [depth Hd]. exists depth. intros l k c Hch. apply (Hd l k).
    unfold child in *. destruct (decide (l = a)) as [->|Hne].
    + rewrite Ha in Hch. cbn in Hch. by rewrite lookup_empty in Hch.
    + by rewrite lookup_insert_ne in Hch.
  - intros n k. eexists. rewrite Inject_single, Ha. split; [reflexivity|].
    split.
    + rewrite Select_single, lookup_insert_eq. cbn. by rewrite lookup_insert_eq.
    + rewrite Pop_single, lookup_insert_eq. cbn. rewrite lookup_insert_eq.
      unfold set_subs. cbn. rewrite !insert_insert_eq.
      rewrite delete_insert_id by apply lookup_empty. reflexivity.
Qed.

Lemma newAggregationTree_spec_witness :
  ∃ a h', newAggregationTree two_nodes = (a, h') ∧
          (a ∉ dom two_nodes) ∧ IsNilTree h' (Some a) = Ok false.
Proof.
  exists (newAggregationTree two_nodes).1, (newAggregationTree two_nodes).2.
  assert (newAggregationTree two_nodes =
          ((newAggregationTree two_nodes).1, (newAggregationTree two_nodes).2))
    as H1 by reflexivity.
  destruct (newAggregationTree_spec two_nodes _ _ H1)
    as (Hfresh & _ & _ & Hnil & _).
  exact (conj H1 (conj Hfresh Hnil)).
Defined.


